(** * rcache: a cache facade in front of a redis connection pool

    Shallow embedding of [redis.go] (package [rcache]) and the properties
    of [NewRedisCache], [getConn], [Set], [Get] and [Stats].

    The program talks to collaborators that live outside the package:
    the redigo connection pool, the connections it hands out and the
    injected marshal / unmarshal functions.  Pool and connections are
    kept abstract (an [Env] over an arbitrary [World]), the two
    functions are fields of the instance; every call to a collaborator
    is recorded in a log so that the order of the calls can be stated. *)

From Stdlib Require Import ZArith List String Lia Bool.
From Stdlib Require Import Floats.SpecFloat.
Import ListNotations.
Set Implicit Arguments.
Open Scope string_scope.
Open Scope list_scope.
Open Scope Z_scope.

(** ** [time.Duration] and [float64] *)

Module Time.

(** [type Duration int64], a count of nanoseconds. *)
Definition Duration := Z.

Definition Nanosecond : Duration := 1.
Definition Microsecond : Duration := 1000 * Nanosecond.
Definition Millisecond : Duration := 1000 * Microsecond.
Definition Second : Duration := 1000 * Millisecond.
Definition Minute : Duration := 60 * Second.

Definition min_int64 : Z := - 2 ^ 63.
Definition max_int64 : Z := 2 ^ 63 - 1.
Definition is_int64 (d : Z) : Prop := min_int64 <= d <= max_int64.

(** IEEE 754 binary64, through the standard library's executable
    specification of floating-point arithmetic. *)
Definition float64 := spec_float.
Definition prec : Z := 53.
Definition emax : Z := 1024.

(** Conversion [float64(n)] of an integer: round to nearest, ties to even. *)
Definition float64_of_int (n : Z) : float64 := binary_normalize prec emax n 0 false.
Definition fadd : float64 -> float64 -> float64 := SFadd prec emax.
Definition fdiv : float64 -> float64 -> float64 := SFdiv prec emax.

(** Conversion [int(f)] of a finite float: the fraction is discarded
    (truncation towards zero).  [int] is taken to be 64 bits wide; all
    the values converted below lie far inside its range. *)
Definition int_of_float64 (f : float64) : Z :=
  match f with
  | S754_finite s m e =>
      let a := match e with
               | Zneg p => Z.shiftr (Zpos m) (Zpos p)
               | _ => Z.shiftl (Zpos m) e
               end in
      if s then - a else a
  | _ => 0
  end.

(** [func (d Duration) Seconds() float64]:
    [sec := d / Second; nsec := d % Second;
     return float64(sec) + float64(nsec)/1e9]. *)
Definition Seconds (d : Duration) : float64 :=
  let sec := Z.quot d Second in
  let nsec := Z.rem d Second in
  fadd (float64_of_int sec) (fdiv (float64_of_int nsec) (float64_of_int 1000000000)).

(** The mantissa of [float64(1e9)], which is [1e9 * 2^23] with
    exponent [-23]. *)
Definition mant_1e9 : positive := 8388608000000000.

End Time.

(** ** Errors *)

(** Go [error] values that can flow through the package.  [ErrNil] is
    redigo's [redis.ErrNil], [ErrCacheMiss] the package's own sentinel;
    both are compared by identity in the source, which the constructors
    give.  [Fault] stands for any other error a collaborator produces;
    [WithStack] and [Wrap] are [errors.WithStack] and [errors.Wrap] of
    [github.com/pkg/errors].  A Go [error] that may be [nil] is an
    [option error]. *)
Inductive error : Type :=
| ErrNil
| ErrCacheMiss
| Fault (msg : string)
| WithStack (cause : error)
| Wrap (cause : error) (msg : string).

(** [errors.Cause]: the innermost error of a chain of wrappers. *)
Fixpoint Cause (e : error) : error :=
  match e with
  | WithStack c => Cause c
  | Wrap c _ => Cause c
  | _ => e
  end.

(** ** Data model *)

Definition bytes := list Byte.byte.

(** A [redis.Conn] handed out by the pool, and the pool itself, are
    handles into the outside world. *)
Definition Conn := nat.
Definition Pool := nat.

(** Calls that leave the package, in the order they are made. *)
Inductive Event : Type :=
| EvPoolGet (p : Pool) (c : Conn)                            (* c.Redis.Get() returned c *)
| EvSetex (c : Conn) (key : string) (ttl : Z) (b : bytes)     (* conn.Do("SETEX", key, ttl, b) *)
| EvGet (c : Conn) (key : string)                             (* conn.Do("GET", key) *)
| EvClose (c : Conn)                                          (* conn.Close() *)
| EvMarshal                                                   (* c.Marshal(object) *)
| EvUnmarshal (b : bytes).                                    (* c.Unmarshal(b, object) *)

Definition max_uint64 : Z := 2 ^ 64 - 1.

(** [atomic.AddUint64(&x, 1)]: addition on [uint64] wraps around. *)
Definition AddUint64 (x delta : Z) : Z := (x + delta) mod 2 ^ 64.

(** [type Stats struct]. *)
Record Stats : Type := { Hits : Z; Misses : Z }.

(** The collaborators as the package sees them, over any state [World]
    of pool, connections and store.  The [*redis.Pool] held by an
    instance is taken to be a live pool (not a nil pointer). *)
Record Env (World : Type) : Type := {
  (* [p.Get()]: the pool always returns a connection; a failed
     acquisition shows in the connection's [Err()] *)
  pool_Get : Pool -> World -> Conn * World;
  (* [conn.Err()] *)
  conn_Err : Conn -> World -> option error;
  (* [conn.Do("SETEX", key, ttl, b)]; the reply is dropped by the caller *)
  conn_Setex : Conn -> string -> Z -> bytes -> World -> option error * World;
  (* [redis.Bytes(conn.Do("GET", key))] *)
  conn_Get : Conn -> string -> World -> (bytes * option error) * World;
  (* [conn.Close()] *)
  conn_Close : Conn -> World -> World
}.

(** A call either returns or panics. *)
Inductive result (A : Type) : Type :=
| Ret (a : A)
| Panic.
Arguments Panic {A}.

(** ** The facade *)

Section Facade.

(** [interface{}]: the objects handed to [Marshal] and the destinations
    handed to [Unmarshal]. *)
Variable Obj : Type.

(** State of the collaborators (pool, connections, store). *)
Variable World : Type.

(** The collaborators' behaviour. *)
Variable E : Env World.

(** [type Cache struct].  The [conn] field is a [redis.Conn] interface
    value, [None] when it is [nil]. *)
Record Cache : Type := {
  Redis : Pool;
  Marshal : Obj -> bytes * option error;
  Unmarshal : bytes -> Obj -> Obj * option error;
  conn : option Conn;
  hits : Z;
  misses : Z
}.

(** [type Item struct]. *)
Record Item : Type := {
  Key : string;
  Object : Obj;
  Expiration : Time.Duration
}.

(** [func NewRedisCache]: the fields not listed in the composite literal
    take their zero value. *)
Definition NewRedisCache (redis : Pool)
  (marshalFunc : Obj -> bytes * option error)
  (unmarshalFunc : bytes -> Obj -> Obj * option error) : Cache :=
  {| Redis := redis; Marshal := marshalFunc; Unmarshal := unmarshalFunc;
     conn := None; hits := 0; misses := 0 |}.

(** *** A monad for the method bodies

    A method runs on the receiver [*Cache] and the outside world, adds
    to the log of outside calls, and either returns or panics. *)

Record Sys : Type := { cache : Cache; world : World; log : list Event }.

Definition M (A : Type) : Type := Sys -> result A * Sys.

Definition ret {A} (a : A) : M A := fun s => (Ret a, s).

Definition bind {A B} (m : M A) (k : A -> M B) : M B :=
  fun s => match m s with
           | (Ret a, s1) => k a s1
           | (Panic, s1) => (Panic, s1)
           end.

Definition panic {A} : M A := fun s => (Panic, s).

(** [defer d] followed by the rest of the body: [d] runs when the body
    is left, whether it returned or panicked. *)
Definition defer {A} (d : M unit) (body : M A) : M A :=
  fun s => let '(r, s1) := body s in (r, snd (d s1)).

Notation "x <- m ;; k" := (bind m (fun x => k))
  (at level 61, m at next level, right associativity).
Notation "' pat <- m ;; k" := (bind m (fun x => match x with pat => k end))
  (at level 61, pat pattern, m at next level, right associativity).

Definition emit (e : Event) (s : Sys) : Sys :=
  {| cache := cache s; world := world s; log := log s ++ [e] |}.

Definition set_world (w : World) (s : Sys) : Sys :=
  {| cache := cache s; world := w; log := log s |}.

Definition set_cache (c : Cache) (s : Sys) : Sys :=
  {| cache := c; world := world s; log := log s |}.

(** The receiver, [c]. *)
Definition self : M Cache := fun s => (Ret (cache s), s).

(** *** Calls to the collaborators *)

Definition Pool_Get (p : Pool) : M Conn :=
  fun s => let '(cn, w) := pool_Get E p (world s) in
           (Ret cn, emit (EvPoolGet p cn) (set_world w s)).

Definition Conn_Err (cn : Conn) : M (option error) :=
  fun s => (Ret (conn_Err E cn (world s)), s).

Definition Conn_Do_SETEX (cn : Conn) (key : string) (ttl : Z) (b : bytes) : M (option error) :=
  fun s => let '(err, w) := conn_Setex E cn key ttl b (world s) in
           (Ret err, emit (EvSetex cn key ttl b) (set_world w s)).

Definition Conn_Do_GET (cn : Conn) (key : string) : M (bytes * option error) :=
  fun s => let '(r, w) := conn_Get E cn key (world s) in
           (Ret r, emit (EvGet cn key) (set_world w s)).

Definition Conn_Close (cn : Conn) : M unit :=
  fun s => (Ret tt, emit (EvClose cn) (set_world (conn_Close E cn (world s)) s)).

Definition call_Marshal (o : Obj) : M (bytes * option error) :=
  fun s => (Ret (Marshal (cache s) o), emit EvMarshal s).

Definition call_Unmarshal (b : bytes) (o : Obj) : M (Obj * option error) :=
  fun s => (Ret (Unmarshal (cache s) b o), emit (EvUnmarshal b) s).

(** Selecting a method of an interface value: a run-time panic when the
    value is [nil]. *)
Definition method_of (c : option Conn) : M Conn :=
  match c with
  | Some cn => ret cn
  | None => panic
  end.

(** Stores to the two counter fields. *)
Definition with_hits (c : Cache) (h : Z) : Cache :=
  {| Redis := Redis c; Marshal := Marshal c; Unmarshal := Unmarshal c;
     conn := conn c; hits := h; misses := misses c |}.

Definition with_misses (c : Cache) (m : Z) : Cache :=
  {| Redis := Redis c; Marshal := Marshal c; Unmarshal := Unmarshal c;
     conn := conn c; hits := hits c; misses := m |}.

(** [atomic.AddUint64(&c.hits, 1)] and [atomic.AddUint64(&c.misses, 1)]. *)
Definition add_hits : M unit :=
  fun s => let c := cache s in
           (Ret tt, set_cache (with_hits c (AddUint64 (hits c) 1)) s).

Definition add_misses : M unit :=
  fun s => let c := cache s in
           (Ret tt, set_cache (with_misses c (AddUint64 (misses c) 1)) s).

(** *** The methods *)

(** [func (c *Cache) getConn() (redis.Conn, error)].  The connection
    taken from the pool is bound to a local [conn]; what is returned on
    the success path is the field [c.conn]. *)
Definition getConn : M (option Conn * option error) :=
  c <- self ;;
  match conn c with
  | None =>
      cn <- Pool_Get (Redis c) ;;
      err <- Conn_Err cn ;;
      match err with
      | Some e => ret (Some cn, Some (WithStack e))
      | None => ret (conn c, None)
      end
  | Some _ => ret (conn c, None)
  end.

(** The TTL argument of SETEX: [expire := item.Expiration;
    if item.Expiration < time.Second { expire = 2 * time.Minute }],
    then [int(expire.Seconds())]. *)
Definition effective_expire (d : Time.Duration) : Time.Duration :=
  if d <? Time.Second then 2 * Time.Minute else d.

Definition ttl_seconds (d : Time.Duration) : Z :=
  Time.int_of_float64 (Time.Seconds (effective_expire d)).

(** [func (c *Cache) Set(item *Item) error] ([Set] is reserved here). *)
Definition Cache_Set (item : Item) : M (option error) :=
  '(b, err) <- call_Marshal (Object item) ;;
  match err with
  | Some e => ret (Some (Wrap e "marshal failed"))
  | None =>
      '(conn, err) <- getConn ;;
      match err with
      | Some e => ret (Some (Wrap e "getConn failed"))
      | None =>
          cn <- method_of conn ;;
          defer (Conn_Close cn)
            (err <- Conn_Do_SETEX cn (Key item) (ttl_seconds (Expiration item)) b ;;
             match err with
             | Some e => ret (Some (Wrap e "Redis SETEX failed"))
             | None => ret None
             end)
      end
  end.

(** [func (c *Cache) Get(key string, object interface{}) error].  The
    second component of the result is the destination as the call
    leaves it. *)
Definition Get (key : string) (object : Obj) : M (option error * Obj) :=
  '(conn, err) <- getConn ;;
  match err with
  | Some e => ret (Some (Wrap e "getConn failed"), object)
  | None =>
      cn <- method_of conn ;;
      defer (Conn_Close cn)
        ('(b, err) <- Conn_Do_GET cn key ;;
         match err with
         | Some ErrNil =>
             _ <- add_misses ;;
             ret (Some ErrCacheMiss, object)
         | Some e => ret (Some (Wrap e "Redis GET failed"), object)
         | None =>
             _ <- add_hits ;;
             match b with
             | [] => ret (None, object)
             | _ :: _ =>
                 '(object', err) <- call_Unmarshal b object ;;
                 match err with
                 | Some e => ret (Some (Wrap e "unmarshal failed"), object')
                 | None => ret (None, object')
                 end
             end
         end)
  end.

(** [func (c *Cache) Stats() *Stats] ([Stats] names the struct). *)
Definition Cache_Stats : M Stats :=
  c <- self ;;
  ret {| Hits := hits c; Misses := misses c |}.

(** *** Sequences of calls on one instance

    A caller that recovers from a panic goes on with the instance as the
    panicking call left it. *)

Inductive Call : Type :=
| CallSet (item : Item)
| CallGet (key : string) (object : Obj)
| CallStats.

Definition exec (c : Call) (s : Sys) : Sys :=
  match c with
  | CallSet item => snd (Cache_Set item s)
  | CallGet key object => snd (Get key object s)
  | CallStats => snd (Cache_Stats s)
  end.

Definition run (cs : list Call) (s : Sys) : Sys :=
  fold_left (fun s c => exec c s) cs s.

End Facade.

Arguments CallStats {Obj}.

(** ** A small concrete world

    An in-memory store behind a pool that numbers the connections it
    hands out; used to run the methods on concrete inputs. *)

Module Toy.

Record World : Type := {
  next_conn : Conn;                       (* handle of the next connection *)
  pool_fault : option error;              (* what [Err()] of a pooled connection says *)
  read_fault : option error;              (* failure of the next GET, if any *)
  write_fault : option error;             (* failure of the next SETEX, if any *)
  store : list (string * bytes)           (* the keys held by the store *)
}.

Fixpoint lookup (key : string) (kvs : list (string * bytes)) : option bytes :=
  match kvs with
  | [] => None
  | (k, v) :: rest => if String.eqb k key then Some v else lookup key rest
  end.

Definition env : Env World := {|
  pool_Get := fun _ w =>
    (next_conn w,
     {| next_conn := S (next_conn w); pool_fault := pool_fault w;
        read_fault := read_fault w; write_fault := write_fault w;
        store := store w |});
  conn_Err := fun _ w => pool_fault w;
  conn_Setex := fun _ key _ b w =>
    match write_fault w with
    | Some e => (Some e, w)
    | None =>
        (None,
         {| next_conn := next_conn w; pool_fault := pool_fault w;
            read_fault := read_fault w; write_fault := write_fault w;
            store := (key, b) :: store w |})
    end;
  conn_Get := fun _ key w =>
    match read_fault w with
    | Some e => (([], Some e), w)
    | None =>
        match lookup key (store w) with
        | Some b => ((b, None), w)
        | None => (([], Some ErrNil), w)
        end
    end;
  conn_Close := fun _ w => w
|}.

(** Objects are byte strings.  The encoding strategy refuses the empty
    object and copies every other one; decoding refuses a payload that
    starts with the byte [0xff]. *)
Definition Obj : Type := bytes.

Definition marshal (o : Obj) : bytes * option error :=
  match o with
  | [] => ([], Some (Fault "nothing to encode"))
  | _ => (o, None)
  end.

Definition unmarshal (b : bytes) (o : Obj) : Obj * option error :=
  match b with
  | Byte.xff :: _ => (o, Some (Fault "bad payload"))
  | _ => (b, None)
  end.

Definition world0 : World :=
  {| next_conn := 7%nat; pool_fault := None; read_fault := None;
     write_fault := None; store := [("empty", []); ("k", [Byte.x01]); ("junk", [Byte.xff])] |}.

(** A freshly constructed facade, and one whose connection field holds
    connection 3 (as code inside the package can build it). *)
Definition fresh : Cache Obj := NewRedisCache 0%nat marshal unmarshal.

Definition wired (h m : Z) : Cache Obj :=
  {| Redis := 0%nat; Marshal := marshal; Unmarshal := unmarshal;
     conn := Some 3%nat; hits := h; misses := m |}.

Definition sys (c : Cache Obj) (w : World) : Sys Obj World :=
  {| cache := c; world := w; log := [] |}.

(** The two instances on the sample world. *)
Definition s_fresh : Sys Obj World := sys fresh world0.
Definition s_wired : Sys Obj World := sys (wired 5 6) world0.

(** An instance whose miss counter stands at the largest [uint64]. *)
Definition s_full : Sys Obj World := sys (wired 0 max_uint64) world0.

(** An item that lives 194 days, 4 hours, 20 minutes and
    16.999999999 seconds, and one whose object cannot be encoded. *)
Definition long_item : Item Obj :=
  {| Key := "a"; Object := [Byte.x05]; Expiration := 16777216999999999 |}.

Definition bad_item : Item Obj :=
  {| Key := "a"; Object := []; Expiration := 5 * Time.Second |}.

(** A read of a key the store does not hold. *)
Definition get_nokey : Call Obj := @CallGet Obj "nokey" [].

(** The sample world with a store that refuses writes, and with a pool
    whose connections report an error. *)
Definition world_readonly : World :=
  {| next_conn := 7%nat; pool_fault := None; read_fault := None;
     write_fault := Some (Fault "READONLY"); store := store world0 |}.

Definition world_down : World :=
  {| next_conn := 7%nat; pool_fault := Some (Fault "pool exhausted");
     read_fault := None; write_fault := None; store := store world0 |}.

(** The sample world after the byte [0x2a], or nothing, was written
    under the key "answer". *)
Definition world_after_write : World :=
  {| next_conn := 7%nat; pool_fault := None; read_fault := None;
     write_fault := None; store := ("answer", [Byte.x2a]) :: store world0 |}.

Definition world_after_blank : World :=
  {| next_conn := 7%nat; pool_fault := None; read_fault := None;
     write_fault := None; store := ("answer", []) :: store world0 |}.

(** An instance whose encoding strategy turns every object into no
    bytes at all. *)
Definition s_blank : Sys Obj World :=
  sys {| Redis := 0%nat; Marshal := fun _ => ([], None); Unmarshal := unmarshal;
         conn := Some 3%nat; hits := 5; misses := 6 |} world0.

End Toy.

(** The events a call added to the log. *)
Definition emitted {Obj World : Type} (s s' : Sys Obj World) : list Event :=
  skipn (List.length (log s)) (log s').

(** The values a [uint64] field can hold. *)
Definition is_uint64 (x : Z) : Prop := 0 <= x <= max_uint64.

(** Requests sent to the store, closes, and events that stay clear of
    every connection but [cn]. *)
Definition is_request (ev : Event) : bool :=
  match ev with
  | EvSetex _ _ _ _ | EvGet _ _ => true
  | _ => false
  end.

Definition is_close (ev : Event) : bool :=
  match ev with
  | EvClose _ => true
  | _ => false
  end.

Definition only_on (cn : Conn) (ev : Event) : Prop :=
  match ev with
  | EvPoolGet _ _ => False
  | EvSetex c _ _ _ | EvGet c _ | EvClose c => c = cn
  | EvMarshal | EvUnmarshal _ => True
  end.

(** Events that reach neither the store nor a connection. *)
Definition off_store (p : Pool) (ev : Event) : Prop :=
  match ev with
  | EvPoolGet q _ => q = p
  | EvMarshal => True
  | _ => False
  end.

(** The [Get] calls of a sequence. *)
Definition is_get {Obj : Type} (c : Call Obj) : bool :=
  match c with
  | CallGet _ _ => true
  | _ => false
  end.

Definition count_gets {Obj : Type} (cs : list (Call Obj)) : nat :=
  List.length (filter is_get cs).

(** * Properties *)

Unset Implicit Arguments.

Section Properties.

Variables (Obj World : Type) (E : Env World).

Implicit Types (s : Sys Obj World) (key : string) (object : Obj) (cn : Conn).

Lemma emitted_app s s' evs : log s' = log s ++ evs -> emitted s s' = evs.
Proof.
  unfold emitted; intros ->.
  rewrite skipn_app, skipn_all, Nat.sub_diag; reflexivity.
Qed.

(** Unfolding of the monad on a concrete state. *)
Ltac run_body :=
  unfold Cache_Set, Get, Cache_Stats, getConn, bind, ret, panic, defer, self,
    method_of, Pool_Get, Conn_Err, Conn_Do_SETEX, Conn_Do_GET, Conn_Close,
    call_Marshal, call_Unmarshal, add_hits, add_misses, emit, set_world, set_cache;
  simpl.

(** With a connection in the field, [getConn] hands it out and touches
    nothing. *)
Lemma getConn_wired s cn :
  conn (cache s) = Some cn -> getConn E s = (Ret (Some cn, None), s).
Proof. intros H; run_body; rewrite H; reflexivity. Qed.

(** With a nil field, [getConn] asks the pool; the connection it gets is
    returned only together with an error. *)
Lemma getConn_nil s :
  conn (cache s) = None ->
  getConn E s =
    (Ret (match conn_Err E (fst (pool_Get E (Redis (cache s)) (world s)))
                  (snd (pool_Get E (Redis (cache s)) (world s))) with
          | Some e => (Some (fst (pool_Get E (Redis (cache s)) (world s))),
                       Some (WithStack e))
          | None => (None, None)
          end),
     {| cache := cache s;
        world := snd (pool_Get E (Redis (cache s)) (world s));
        log := log s ++ [EvPoolGet (Redis (cache s))
                           (fst (pool_Get E (Redis (cache s)) (world s)))] |}).
Proof.
  intros H; run_body; rewrite H.
  destruct (pool_Get E (Redis (cache s)) (world s)) as [cn w]; simpl.
  destruct (conn_Err E cn w); simpl; rewrite ?H; reflexivity.
Qed.

(** [Get] on an instance whose field is nil: the acquisition error, or
    a panic at [defer conn.Close()]. *)
Lemma Get_nil s key object :
  conn (cache s) = None ->
  Get E key object s =
    (match conn_Err E (fst (pool_Get E (Redis (cache s)) (world s)))
                  (snd (pool_Get E (Redis (cache s)) (world s))) with
     | Some e => Ret (Some (Wrap (WithStack e) "getConn failed"), object)
     | None => Panic
     end,
     {| cache := cache s;
        world := snd (pool_Get E (Redis (cache s)) (world s));
        log := log s ++ [EvPoolGet (Redis (cache s))
                           (fst (pool_Get E (Redis (cache s)) (world s)))] |}).
Proof.
  intros H. unfold Get, bind. rewrite (getConn_nil s H).
  destruct (conn_Err E _ _); reflexivity.
Qed.

(** [Get] on an instance whose field holds [cn], by the answer of the
    store. *)
Lemma Get_wired_miss s key object cn b w :
  conn (cache s) = Some cn ->
  conn_Get E cn key (world s) = ((b, Some ErrNil), w) ->
  Get E key object s =
    (Ret (Some ErrCacheMiss, object),
     {| cache := with_misses (cache s) (AddUint64 (misses (cache s)) 1);
        world := conn_Close E cn w;
        log := (log s ++ [EvGet cn key]) ++ [EvClose cn] |}).
Proof. intros H G; run_body; rewrite H; simpl; rewrite G; reflexivity. Qed.

Lemma Get_wired_fault s key object cn b e w :
  conn (cache s) = Some cn ->
  conn_Get E cn key (world s) = ((b, Some e), w) ->
  e <> ErrNil ->
  Get E key object s =
    (Ret (Some (Wrap e "Redis GET failed"), object),
     {| cache := cache s; world := conn_Close E cn w;
        log := (log s ++ [EvGet cn key]) ++ [EvClose cn] |}).
Proof.
  intros H G Hne; run_body; rewrite H; simpl; rewrite G.
  destruct e; try reflexivity; congruence.
Qed.

Lemma Get_wired_empty s key object cn w :
  conn (cache s) = Some cn ->
  conn_Get E cn key (world s) = (([], None), w) ->
  Get E key object s =
    (Ret (None, object),
     {| cache := with_hits (cache s) (AddUint64 (hits (cache s)) 1);
        world := conn_Close E cn w;
        log := (log s ++ [EvGet cn key]) ++ [EvClose cn] |}).
Proof. intros H G; run_body; rewrite H; simpl; rewrite G; reflexivity. Qed.

Lemma Get_wired_decode s key object cn b w :
  conn (cache s) = Some cn ->
  conn_Get E cn key (world s) = ((b, None), w) ->
  b <> [] ->
  Get E key object s =
    (Ret (match snd (Unmarshal (cache s) b object) with
          | Some e => Some (Wrap e "unmarshal failed")
          | None => None
          end, fst (Unmarshal (cache s) b object)),
     {| cache := with_hits (cache s) (AddUint64 (hits (cache s)) 1);
        world := conn_Close E cn w;
        log := ((log s ++ [EvGet cn key]) ++ [EvUnmarshal b]) ++ [EvClose cn] |}).
Proof.
  intros H G Hb; run_body; rewrite H; simpl; rewrite G.
  destruct b as [|x b']; [congruence|].
  simpl. destruct (Unmarshal (cache s) (x :: b') object) as [o' [e|]]; reflexivity.
Qed.

Lemma AddUint64_succ x : 0 <= x < max_uint64 -> AddUint64 x 1 = x + 1.
Proof.
  unfold AddUint64, max_uint64; intros H.
  apply Z.mod_small; lia.
Qed.

Lemma error_is_ErrNil (e : error) : e = ErrNil \/ e <> ErrNil.
Proof. destruct e; auto; right; discriminate. Qed.

(** ** [Get]: classification of the store's answer *)

(** C2.  When the store answers the read with its "missing key" signal
    ([redis.ErrNil]), [Get] adds exactly one to the miss counter (a
    [uint64] addition, [+1] whenever the counter is below its maximum),
    leaves the hit counter alone and returns the sentinel [ErrCacheMiss]
    itself, with no wrapper around it. *)
Theorem Get_missing_key_is_cache_miss s key object cn b w :
  conn (cache s) = Some cn ->
  conn_Get E cn key (world s) = ((b, Some ErrNil), w) ->
  let r := Get E key object s in
  fst r = Ret (Some ErrCacheMiss, object) /\
  misses (cache (snd r)) = AddUint64 (misses (cache s)) 1 /\
  (0 <= misses (cache s) < max_uint64 ->
   misses (cache (snd r)) = misses (cache s) + 1) /\
  hits (cache (snd r)) = hits (cache s).
Proof.
  intros H G r; subst r.
  rewrite (@Get_wired_miss s key object cn b w H G); simpl.
  repeat split; auto using AddUint64_succ.
Qed.

(** C3.  When the store read succeeds, [Get] adds exactly one to the hit
    counter and leaves the miss counter alone, whatever happens next; if
    the payload is not empty and the unmarshal function fails on it,
    [Get] returns that failure wrapped as "unmarshal failed" and the
    increment stays. *)
Theorem Get_read_success_counts_hit s key object cn b w :
  conn (cache s) = Some cn ->
  conn_Get E cn key (world s) = ((b, None), w) ->
  let r := Get E key object s in
  hits (cache (snd r)) = AddUint64 (hits (cache s)) 1 /\
  (0 <= hits (cache s) < max_uint64 ->
   hits (cache (snd r)) = hits (cache s) + 1) /\
  misses (cache (snd r)) = misses (cache s) /\
  (forall object' e,
      b <> [] ->
      Unmarshal (cache s) b object = (object', Some e) ->
      fst r = Ret (Some (Wrap e "unmarshal failed"), object') /\
      Cause (Wrap e "unmarshal failed") = Cause e).
Proof.
  intros H G r; subst r.
  destruct b as [|x b'].
  - rewrite (@Get_wired_empty s key object cn w H G); simpl.
    repeat split; auto using AddUint64_succ; congruence.
  - assert (Hb : x :: b' <> []) by congruence.
    rewrite (@Get_wired_decode s key object cn (x :: b') w H G Hb); simpl.
    repeat split; auto using AddUint64_succ.
    all: match goal with U : Unmarshal _ _ _ = _ |- _ => rewrite U end; reflexivity.
Qed.

(** C4.  When the store read succeeds with a payload of length zero,
    [Get] returns success, counts a hit, never calls the unmarshal
    function (the only outside calls are the read and the close) and
    hands the destination back as it was. *)
Theorem Get_empty_payload_skips_decode s key object cn w :
  conn (cache s) = Some cn ->
  conn_Get E cn key (world s) = (([], None), w) ->
  let r := Get E key object s in
  fst r = Ret (None, object) /\
  hits (cache (snd r)) = AddUint64 (hits (cache s)) 1 /\
  emitted s (snd r) = [EvGet cn key; EvClose cn] /\
  (forall b, ~ In (EvUnmarshal b) (emitted s (snd r))).
Proof.
  intros H G r; subst r.
  rewrite (@Get_wired_empty s key object cn w H G); simpl.
  assert (Hev : emitted s
            {| cache := with_hits (cache s) (AddUint64 (hits (cache s)) 1);
               world := conn_Close E cn w;
               log := (log s ++ [EvGet cn key]) ++ [EvClose cn] |}
          = [EvGet cn key; EvClose cn]).
  { apply emitted_app; simpl; rewrite <- app_assoc; reflexivity. }
  rewrite Hev.
  repeat split; auto.
  intros b [F | [F | []]]; discriminate.
Qed.

(** C8.  When the store read fails with anything but the "missing key"
    signal, [Get] changes neither counter and returns the fault wrapped
    as "Redis GET failed", the fault itself remaining its cause. *)
Theorem Get_read_fault_counts_nothing s key object cn b e w :
  conn (cache s) = Some cn ->
  conn_Get E cn key (world s) = ((b, Some e), w) ->
  e <> ErrNil ->
  let r := Get E key object s in
  fst r = Ret (Some (Wrap e "Redis GET failed"), object) /\
  Cause (Wrap e "Redis GET failed") = Cause e /\
  hits (cache (snd r)) = hits (cache s) /\
  misses (cache (snd r)) = misses (cache s).
Proof.
  intros H G Hne r; subst r.
  rewrite (@Get_wired_fault s key object cn b e w H G Hne); simpl.
  repeat split.
Qed.

(** ** [Get]: the destination *)

(** Every call of [Unmarshal] made by [Get] follows a successful read
    of a payload that is not empty. *)
Lemma Get_unmarshal_only_on_payload s key object b :
  In (EvUnmarshal b) (emitted s (snd (Get E key object s))) ->
  b <> [] /\
  exists cn w, conn (cache s) = Some cn /\
               conn_Get E cn key (world s) = ((b, None), w).
Proof.
  destruct (conn (cache s)) as [cn|] eqn:Hc.
  - destruct (conn_Get E cn key (world s)) as [[b0 [e|]] w] eqn:G.
    + assert (Hlog : emitted s (snd (Get E key object s)) = [EvGet cn key; EvClose cn]).
      { apply emitted_app. revert G; run_body; rewrite Hc; simpl; intros ->.
        destruct e; simpl; rewrite <- app_assoc; reflexivity. }
      rewrite Hlog. intros [F | [F | []]]; discriminate.
    + destruct b0 as [|x b'].
      * rewrite (@Get_wired_empty s key object cn w Hc G); simpl.
        erewrite emitted_app by (simpl; rewrite <- app_assoc; reflexivity).
        intros [F | [F | []]]; discriminate.
      * assert (Hb : x :: b' <> []) by congruence.
        rewrite (@Get_wired_decode s key object cn (x :: b') w Hc G Hb); simpl.
        erewrite emitted_app by (simpl; rewrite <- !app_assoc; reflexivity).
        intros [F | [F | [F | []]]]; try discriminate.
        injection F as <-. split; [assumption|]. exists cn, w; auto.
  - rewrite (Get_nil s key object Hc); simpl.
    erewrite emitted_app by (simpl; reflexivity).
    intros [F | []]; discriminate.
Qed.

(** A read is sent only on the connection held by the field, for the
    key asked for. *)
Lemma Get_read_needs_connection s key object cn key' :
  In (EvGet cn key') (emitted s (snd (Get E key object s))) ->
  conn (cache s) = Some cn /\ key' = key.
Proof.
  destruct (conn (cache s)) as [c0|] eqn:Hc.
  - assert (Hev : exists rest, emitted s (snd (Get E key object s)) = EvGet c0 key :: rest
                               /\ forall c k, ~ In (EvGet c k) rest).
    { destruct (conn_Get E c0 key (world s)) as [[b0 [e|]] w] eqn:G.
      - exists [EvClose c0]. split.
        + apply emitted_app. revert G; run_body; rewrite Hc; simpl; intros ->.
          destruct e; simpl; rewrite <- app_assoc; reflexivity.
        + intros c k [F | []]; discriminate.
      - destruct b0 as [|x b'].
        + exists [EvClose c0]. split.
          * rewrite (Get_wired_empty s key object c0 w Hc G); simpl.
            apply emitted_app; simpl; rewrite <- app_assoc; reflexivity.
          * intros c k [F | []]; discriminate.
        + assert (Hb : x :: b' <> []) by congruence.
          exists [EvUnmarshal (x :: b'); EvClose c0]. split.
          * rewrite (Get_wired_decode s key object c0 (x :: b') w Hc G Hb); simpl.
            apply emitted_app; simpl; rewrite <- !app_assoc; reflexivity.
          * intros c k [F | [F | []]]; discriminate. }
    destruct Hev as (rest & -> & Hrest).
    intros [F | F]; [injection F as <- <-; auto | destruct (Hrest _ _ F)].
  - rewrite (Get_nil s key object Hc); simpl.
    erewrite emitted_app by (simpl; reflexivity).
    intros [F | []]; discriminate.
Qed.

(** C10.  A [Get] that returns [ErrCacheMiss] or a wrapped read fault
    hands the destination back as it was and has not called the
    unmarshal function; in general the unmarshal function is called only
    after a read that succeeded with a payload that is not empty. *)
Theorem Get_failure_leaves_destination s key object :
  let r := Get E key object s in
  (forall err object',
      fst r = Ret (Some err, object') ->
      err = ErrCacheMiss \/ (exists e, err = Wrap e "Redis GET failed") ->
      object' = object /\
      forall b, ~ In (EvUnmarshal b) (emitted s (snd r))) /\
  (forall b,
      In (EvUnmarshal b) (emitted s (snd r)) ->
      b <> [] /\
      exists cn w, conn (cache s) = Some cn /\
                   conn_Get E cn key (world s) = ((b, None), w)).
Proof.
  intros r; subst r; split.
  2: { intros b; apply Get_unmarshal_only_on_payload. }
  intros err object' Hr Herr.
  assert (Hno : forall b, ~ In (EvUnmarshal b) (emitted s (snd (Get E key object s)))).
  { intros b Hin.
    destruct (Get_unmarshal_only_on_payload _ _ _ _ Hin) as [Hb (cn & w & Hc & G)].
    rewrite (@Get_wired_decode s key object cn b w Hc G Hb) in Hr; simpl in Hr.
    destruct (snd (Unmarshal (cache s) b object)); inversion Hr; subst.
    destruct Herr as [F' | [e' F']]; discriminate. }
  split; [| exact Hno].
  destruct (conn (cache s)) as [cn|] eqn:Hc.
  - destruct (conn_Get E cn key (world s)) as [[b0 [e|]] w] eqn:G.
    + destruct (error_is_ErrNil e) as [-> | Hne].
      * rewrite (@Get_wired_miss s key object cn b0 w Hc G) in Hr.
        simpl in Hr; congruence.
      * rewrite (@Get_wired_fault s key object cn b0 e w Hc G Hne) in Hr.
        simpl in Hr; congruence.
    + destruct b0 as [|x b'].
      * rewrite (@Get_wired_empty s key object cn w Hc G) in Hr.
        simpl in Hr; congruence.
      * exfalso. apply (Hno (x :: b')).
        assert (Hb : x :: b' <> []) by congruence.
        rewrite (@Get_wired_decode s key object cn (x :: b') w Hc G Hb); simpl.
        erewrite emitted_app by (simpl; rewrite <- !app_assoc; reflexivity).
        simpl; auto.
  - rewrite (Get_nil s key object Hc) in Hr; simpl in Hr.
    destruct (conn_Err E _ _); inversion Hr; subst; reflexivity.
Qed.

(** ** [Set] *)

(** [Set] when the marshal function refuses the object. *)
Lemma Set_marshal_rejects s item b e :
  Marshal (cache s) (Object item) = (b, Some e) ->
  Cache_Set E item s =
    (Ret (Some (Wrap e "marshal failed")),
     {| cache := cache s; world := world s; log := log s ++ [EvMarshal] |}).
Proof. intros H; run_body; rewrite H; reflexivity. Qed.

(** [Set] on an instance whose field holds [cn]: one SETEX on [cn] with
    the computed TTL, then the deferred close of [cn]. *)
Lemma Set_wired s item b cn :
  Marshal (cache s) (Object item) = (b, None) ->
  conn (cache s) = Some cn ->
  Cache_Set E item s =
    (Ret (match fst (conn_Setex E cn (Key item) (ttl_seconds (Expiration item)) b (world s)) with
          | Some e => Some (Wrap e "Redis SETEX failed")
          | None => None
          end),
     {| cache := cache s;
        world := conn_Close E cn
                   (snd (conn_Setex E cn (Key item) (ttl_seconds (Expiration item)) b (world s)));
        log := ((log s ++ [EvMarshal])
                  ++ [EvSetex cn (Key item) (ttl_seconds (Expiration item)) b])
                 ++ [EvClose cn] |}).
Proof.
  intros H Hc; run_body; rewrite H; simpl; rewrite Hc; simpl.
  destruct (conn_Setex E cn (Key item) (ttl_seconds (Expiration item)) b (world s))
    as [[e|] w]; reflexivity.
Qed.

(** [Set] on an instance whose field is nil. *)
Lemma Set_nil s item b :
  Marshal (cache s) (Object item) = (b, None) ->
  conn (cache s) = None ->
  Cache_Set E item s =
    (match conn_Err E (fst (pool_Get E (Redis (cache s)) (world s)))
                  (snd (pool_Get E (Redis (cache s)) (world s))) with
     | Some e => Ret (Some (Wrap (WithStack e) "getConn failed"))
     | None => Panic
     end,
     {| cache := cache s;
        world := snd (pool_Get E (Redis (cache s)) (world s));
        log := (log s ++ [EvMarshal])
                 ++ [EvPoolGet (Redis (cache s))
                       (fst (pool_Get E (Redis (cache s)) (world s)))] |}).
Proof.
  intros H Hc; run_body; rewrite H; simpl; rewrite Hc; simpl.
  destruct (pool_Get E (Redis (cache s)) (world s)) as [cn w]; simpl.
  destruct (conn_Err E cn w); simpl; rewrite ?Hc; reflexivity.
Qed.

(** No path of [Set] writes a field of the receiver. *)
Lemma Set_keeps_cache s item : cache (snd (Cache_Set E item s)) = cache s.
Proof.
  destruct (Marshal (cache s) (Object item)) as [b [e|]] eqn:H.
  - rewrite (Set_marshal_rejects s item b e H); reflexivity.
  - destruct (conn (cache s)) as [cn|] eqn:Hc.
    + rewrite (Set_wired s item b cn H Hc); reflexivity.
    + rewrite (Set_nil s item b H Hc); reflexivity.
Qed.

(** C9 (as the code has it).  When the marshal function refuses the
    object, [Set] returns its error wrapped as "marshal failed" (the
    error itself remaining the cause), after exactly one call of the
    marshal function and no other outside call: no connection is taken
    from the pool, the store is not contacted, and the instance and the
    world are as before. *)
Theorem Set_marshal_failure_is_wrapped s item b e :
  Marshal (cache s) (Object item) = (b, Some e) ->
  let r := Cache_Set E item s in
  fst r = Ret (Some (Wrap e "marshal failed")) /\
  Cause (Wrap e "marshal failed") = Cause e /\
  emitted s (snd r) = [EvMarshal] /\
  cache (snd r) = cache s /\
  world (snd r) = world s.
Proof.
  intros H r; subst r.
  rewrite (Set_marshal_rejects s item b e H); simpl.
  repeat split. apply emitted_app; reflexivity.
Qed.

(** ** The connection field and the counters along a run *)

(** What a [Get] can do to the receiver: nothing, or one increment of
    one counter. *)
Lemma Get_cache_cases s key object :
  let c' := cache (snd (Get E key object s)) in
  c' = cache s \/
  c' = with_hits (cache s) (AddUint64 (hits (cache s)) 1) \/
  c' = with_misses (cache s) (AddUint64 (misses (cache s)) 1).
Proof.
  simpl.
  destruct (conn (cache s)) as [cn|] eqn:Hc.
  - destruct (conn_Get E cn key (world s)) as [[b [e|]] w] eqn:G.
    + destruct (error_is_ErrNil e) as [-> | Hne].
      * rewrite (Get_wired_miss s key object cn b w Hc G); auto.
      * rewrite (Get_wired_fault s key object cn b e w Hc G Hne); auto.
    + destruct b as [|x b'].
      * rewrite (Get_wired_empty s key object cn w Hc G); auto.
      * assert (Hb : x :: b' <> []) by congruence.
        rewrite (Get_wired_decode s key object cn (x :: b') w Hc G Hb); auto.
  - rewrite (Get_nil s key object Hc); auto.
Qed.

Lemma exec_cache_cases (c : Call Obj) s :
  let c' := cache (exec E c s) in
  c' = cache s \/
  (exists key object, c = CallGet key object) /\
  (c' = with_hits (cache s) (AddUint64 (hits (cache s)) 1) \/
   c' = with_misses (cache s) (AddUint64 (misses (cache s)) 1)).
Proof.
  destruct c as [item | key object |]; simpl.
  - left; apply Set_keeps_cache.
  - destruct (Get_cache_cases s key object) as [H | H]; eauto.
  - left; reflexivity.
Qed.

Lemma exec_keeps_conn (c : Call Obj) s : conn (cache (exec E c s)) = conn (cache s).
Proof.
  destruct (exec_cache_cases c s) as [-> | [_ [-> | ->]]]; reflexivity.
Qed.

Lemma run_app (cs1 cs2 : list (Call Obj)) s :
  run E (cs1 ++ cs2) s = run E cs2 (run E cs1 s).
Proof. unfold run; apply fold_left_app. Qed.

Lemma run_keeps_conn (cs : list (Call Obj)) s :
  conn (cache (run E cs s)) = conn (cache s).
Proof.
  revert s; induction cs as [|c cs IH]; intros s; simpl; [reflexivity|].
  change (conn (cache (run E cs (exec E c s))) = conn (cache s)).
  rewrite IH; apply exec_keeps_conn.
Qed.

(** C6.  On an instance whose connection field is nil, when the pool
    hands out a healthy connection, [getConn] drops that connection
    (it is neither stored nor returned nor closed) and returns the nil
    field with a nil error; and no sequence of [Set], [Get] and [Stats]
    calls ever stores anything in the field. *)
Theorem getConn_discards_acquired_connection s cn w :
  conn (cache s) = None ->
  pool_Get E (Redis (cache s)) (world s) = (cn, w) ->
  conn_Err E cn w = None ->
  fst (getConn E s) = Ret (None, None) /\
  emitted s (snd (getConn E s)) = [EvPoolGet (Redis (cache s)) cn] /\
  cache (snd (getConn E s)) = cache s /\
  (forall cs : list (Call Obj), conn (cache (run E cs s)) = None).
Proof.
  intros Hc Hp He.
  rewrite (getConn_nil s Hc), Hp; simpl; rewrite He.
  repeat split.
  - apply emitted_app; reflexivity.
  - intros cs; rewrite run_keeps_conn; exact Hc.
Qed.

Lemma AddUint64_range x : is_uint64 (AddUint64 x 1).
Proof.
  unfold is_uint64, AddUint64, max_uint64.
  pose proof (Z.mod_pos_bound (x + 1) (2 ^ 64)); lia.
Qed.

Lemma AddUint64_wrap : AddUint64 max_uint64 1 = 0.
Proof. reflexivity. Qed.

Lemma exec_counters_in_range (c : Call Obj) s :
  is_uint64 (hits (cache s)) -> is_uint64 (misses (cache s)) ->
  is_uint64 (hits (cache (exec E c s))) /\ is_uint64 (misses (cache (exec E c s))).
Proof.
  intros Hh Hm.
  destruct (exec_cache_cases c s) as [-> | [_ [-> | ->]]]; simpl;
    auto using AddUint64_range.
Qed.

Lemma run_counters_in_range (cs : list (Call Obj)) s :
  is_uint64 (hits (cache s)) -> is_uint64 (misses (cache s)) ->
  is_uint64 (hits (cache (run E cs s))) /\ is_uint64 (misses (cache (run E cs s))).
Proof.
  revert s; induction cs as [|c cs IH]; intros s Hh Hm; simpl; [auto|].
  change (is_uint64 (hits (cache (run E cs (exec E c s)))) /\
          is_uint64 (misses (cache (run E cs (exec E c s))))).
  destruct (exec_counters_in_range c s Hh Hm); auto.
Qed.

(** One call, from any state: a [Set] or [Stats] leaves both counters,
    a [Get] adds one (on [uint64]) to at most one of them. *)
Lemma exec_counters (c : Call Obj) s :
  let s' := exec E c s in
  (hits (cache s') = hits (cache s) /\ misses (cache s') = misses (cache s)) \/
  (exists key object, c = CallGet key object) /\
  ((hits (cache s') = AddUint64 (hits (cache s)) 1 /\ misses (cache s') = misses (cache s)) \/
   (hits (cache s') = hits (cache s) /\ misses (cache s') = AddUint64 (misses (cache s)) 1)).
Proof.
  simpl.
  destruct (exec_cache_cases c s) as [-> | [Hg [-> | ->]]]; simpl; auto.
Qed.

(** C7 (as the code has it).  At every point of every sequence of
    [Set], [Get] and [Stats] calls on an instance whose counters hold
    [uint64] values: a [Set] (and a [Stats]) changes neither counter;
    any call leaves each counter equal or one higher as long as the
    counter is below 2^64 - 1; a counter that stands at 2^64 - 1 stays
    or wraps to 0, and that wrap-around is the only way a counter goes
    down. *)
Theorem counters_monotone_until_wrap s (pre : list (Call Obj)) (c : Call Obj) :
  is_uint64 (hits (cache s)) ->
  is_uint64 (misses (cache s)) ->
  let s1 := run E pre s in
  let s2 := run E (pre ++ [c]) s in
  ((exists item, c = CallSet item) \/ c = CallStats ->
   hits (cache s2) = hits (cache s1) /\ misses (cache s2) = misses (cache s1)) /\
  (hits (cache s1) < max_uint64 ->
   hits (cache s1) <= hits (cache s2) <= hits (cache s1) + 1) /\
  (misses (cache s1) < max_uint64 ->
   misses (cache s1) <= misses (cache s2) <= misses (cache s1) + 1) /\
  (hits (cache s1) = max_uint64 ->
   hits (cache s2) = max_uint64 \/ hits (cache s2) = 0) /\
  (misses (cache s1) = max_uint64 ->
   misses (cache s2) = max_uint64 \/ misses (cache s2) = 0).
Proof.
  intros Hh Hm s1 s2.
  assert (E2 : s2 = exec E c s1) by (unfold s2, s1; rewrite run_app; reflexivity).
  destruct (run_counters_in_range pre s Hh Hm) as [Hh1 Hm1].
  fold s1 in Hh1, Hm1. rewrite E2. clearbody s1. clear s2 E2.
  unfold is_uint64 in Hh1, Hm1.
  split.
  { intros [[item ->] | ->]; simpl.
    - rewrite Set_keeps_cache; auto.
    - auto. }
  destruct (exec_counters c s1) as [[-> ->] | [_ [[-> ->] | [-> ->]]]].
  - repeat split; intros; auto; lia.
  - repeat split; intros; auto; try lia.
    + rewrite AddUint64_succ by lia; lia.
    + rewrite AddUint64_succ by lia; lia.
    + right. match goal with H : hits _ = _ |- _ => rewrite H end. apply AddUint64_wrap.
  - repeat split; intros; auto; try lia.
    + rewrite AddUint64_succ by lia; lia.
    + rewrite AddUint64_succ by lia; lia.
    + right. match goal with H : misses _ = _ |- _ => rewrite H end. apply AddUint64_wrap.
Qed.

(** Over a whole sequence: a counter that cannot reach its maximum
    within the sequence never goes down. *)
Lemma run_counters_monotone (cs : list (Call Obj)) s :
  is_uint64 (hits (cache s)) ->
  is_uint64 (misses (cache s)) ->
  (hits (cache s) + Z.of_nat (List.length cs) <= max_uint64 ->
   hits (cache s) <= hits (cache (run E cs s)) <= hits (cache s) + Z.of_nat (List.length cs)) /\
  (misses (cache s) + Z.of_nat (List.length cs) <= max_uint64 ->
   misses (cache s) <= misses (cache (run E cs s)) <= misses (cache s) + Z.of_nat (List.length cs)).
Proof.
  revert s; induction cs as [|c cs IH]; intros s Hh Hm.
  - simpl; split; intros; lia.
  - change (run E (c :: cs) s) with (run E cs (exec E c s)).
    destruct (exec_counters_in_range c s Hh Hm) as [Hh' Hm'].
    destruct (IH (exec E c s) Hh' Hm') as [IHh IHm].
    unfold is_uint64 in *.
    replace (Z.of_nat (List.length (c :: cs))) with (Z.of_nat (List.length cs) + 1)
      by (simpl List.length; lia).
    destruct (exec_counters c s) as [[Eh Em] | [_ [[Eh Em] | [Eh Em]]]];
      rewrite Eh in *; rewrite Em in *;
      split; intros Hb;
      try (rewrite AddUint64_succ in * by lia); lia.
Qed.

End Properties.

(** ** Binary64 arithmetic behind [Seconds]

    What the conversions, the division and the addition of [Seconds]
    compute, read off the executable specification at precision 53 and
    maximal exponent 1024 ([Time.prec], [Time.emax]). *)

(** *** Number of binary digits *)

Lemma digits2_pos_size p : digits2_pos p = Pos.size p.
Proof. induction p; simpl; congruence. Qed.

Lemma digits2_log2 p : Zpos (digits2_pos p) = Z.succ (Z.log2 (Zpos p)).
Proof.
  rewrite digits2_pos_size.
  destruct p; simpl; rewrite ?Pos2Z.inj_succ; reflexivity.
Qed.

Lemma digits2_unique p d :
  0 < d -> 2 ^ (d - 1) <= Zpos p < 2 ^ d -> Zpos (digits2_pos p) = d.
Proof.
  intros Hd H. rewrite digits2_log2.
  rewrite (Z.log2_unique (Zpos p) (d - 1)); try lia.
  replace (Z.succ (d - 1)) with d by lia. exact H.
Qed.

Lemma digits2_bounds p :
  2 ^ (Zpos (digits2_pos p) - 1) <= Zpos p < 2 ^ Zpos (digits2_pos p).
Proof.
  rewrite digits2_log2.
  replace (Z.succ (Z.log2 (Zpos p)) - 1) with (Z.log2 (Zpos p)) by lia.
  apply Z.log2_spec; lia.
Qed.

(** *** Right shifts

    [iter_pos] is plain iteration; [n] steps of [shr_1] divide the
    mantissa by [2^n] and leave the last bit shifted out in [shr_r]. *)
Lemma iter_pos_nat {A} (f : A -> A) p x : iter_pos f p x = Nat.iter (Pos.to_nat p) f x.
Proof.
  revert x; induction p as [p IH | p IH |]; intros x; cbn [iter_pos].
  - rewrite !IH, <- Nat.iter_succ_r, <- Nat.iter_add.
    f_equal. rewrite Pos2Nat.inj_xI. lia.
  - rewrite !IH, <- Nat.iter_add.
    f_equal. rewrite Pos2Nat.inj_xO. lia.
  - reflexivity.
Qed.

Lemma shr_1_m mrs : 0 <= shr_m mrs -> shr_m (shr_1 mrs) = shr_m mrs / 2.
Proof.
  destruct mrs as [m r s]; cbn [shr_m]. intros H.
  rewrite <- Z.div2_div.
  destruct m as [|p|p]; try lia; [reflexivity|].
  destruct p; reflexivity.
Qed.

Lemma shr_1_r mrs : 0 <= shr_m mrs -> shr_r (shr_1 mrs) = Z.odd (shr_m mrs).
Proof.
  destruct mrs as [m r s]; simpl. intros H.
  destruct m as [|p|p]; try lia; [reflexivity|].
  destruct p; reflexivity.
Qed.

Lemma shr_iter_m n mrs :
  0 <= shr_m mrs -> shr_m (Nat.iter n shr_1 mrs) = shr_m mrs / 2 ^ Z.of_nat n.
Proof.
  intros H. induction n as [|n IH].
  - simpl. rewrite Z.div_1_r. reflexivity.
  - rewrite Nat.iter_succ, shr_1_m, IH.
    + rewrite Nat2Z.inj_succ, Z.pow_succ_r by lia.
      rewrite Z.div_div by (try apply Z.pow_pos_nonneg; lia).
      f_equal; lia.
    + rewrite IH. apply Z.div_pos; [lia | apply Z.pow_pos_nonneg; lia].
Qed.

Lemma shr_iter_r n mrs :
  0 <= shr_m mrs ->
  shr_r (Nat.iter (S n) shr_1 mrs) = Z.odd (shr_m mrs / 2 ^ Z.of_nat n).
Proof.
  intros H. rewrite Nat.iter_succ, shr_1_r, shr_iter_m by
    (try rewrite shr_iter_m by assumption; try apply Z.div_pos; try apply Z.pow_pos_nonneg; lia).
  reflexivity.
Qed.

(** *** Rounding to nearest, ties to even *)

Lemma fexp_normal e : -1021 <= e -> fexp 53 1024 e = e - 53.
Proof. intros H. unfold fexp, emin. lia. Qed.

Lemma loc_of_record_of_loc m l : loc_of_shr_record (shr_record_of_loc m l) = l.
Proof. destruct l as [|[]]; reflexivity. Qed.

Lemma shr_m_record_of_loc m l : shr_m (shr_record_of_loc m l) = m.
Proof. destruct l as [|[]]; reflexivity. Qed.

Lemma rne_bounds m l : m <= round_nearest_even m l <= m + 1.
Proof. destruct l as [|[]]; simpl; try destruct (Z.even m); lia. Qed.

Lemma rne_exact m : round_nearest_even m loc_Exact = m.
Proof. reflexivity. Qed.

Lemma rne_low mrs : shr_r mrs = false ->
  round_nearest_even (shr_m mrs) (loc_of_shr_record mrs) = shr_m mrs.
Proof. destruct mrs as [m [] []]; simpl; intros H; congruence. Qed.

(** The shift at the start of a rounding: by how much, and what it leaves. *)
Lemma shr_fexp_spec p e l :
  -1021 <= Zpos (digits2_pos p) + e ->
  exists mrs,
    shr_fexp 53 1024 (Zpos p) e l = (mrs, e + Z.max 0 (Zpos (digits2_pos p) - 53)) /\
    shr_m mrs = Zpos p / 2 ^ Z.max 0 (Zpos (digits2_pos p) - 53) /\
    (Zpos (digits2_pos p) <= 53 -> mrs = shr_record_of_loc (Zpos p) l) /\
    (53 < Zpos (digits2_pos p) ->
     shr_r mrs = Z.odd (Zpos p / 2 ^ (Zpos (digits2_pos p) - 54))).
Proof.
  intros He. unfold shr_fexp. cbn [Zdigits2].
  rewrite fexp_normal by assumption.
  set (d := Zpos (digits2_pos p)) in *.
  replace (d + e - 53 - e) with (d - 53) by lia.
  unfold shr.
  destruct (d - 53) as [|k|k] eqn:Hk.
  - exists (shr_record_of_loc (Zpos p) l). simpl Z.max.
    rewrite Z.add_0_r, Z.pow_0_r, Z.div_1_r, shr_m_record_of_loc.
    repeat split; auto; lia.
  - exists (iter_pos shr_1 k (shr_record_of_loc (Zpos p) l)).
    replace (Z.max 0 (Zpos k)) with (Zpos k) by lia.
    rewrite iter_pos_nat.
    repeat split.
    + rewrite shr_iter_m by (rewrite shr_m_record_of_loc; lia).
      rewrite shr_m_record_of_loc, positive_nat_Z. reflexivity.
    + lia.
    + intros _. destruct (Pos2Nat.is_succ k) as [j Hj]. rewrite Hj.
      rewrite shr_iter_r by (rewrite shr_m_record_of_loc; lia).
      rewrite shr_m_record_of_loc. do 3 f_equal. lia.
  - exists (shr_record_of_loc (Zpos p) l).
    replace (Z.max 0 (Zneg k)) with 0 by lia.
    rewrite Z.add_0_r, Z.pow_0_r, Z.div_1_r, shr_m_record_of_loc.
    repeat split; auto; lia.
Qed.

(** A mantissa of at least 53 bits keeps exactly 53 after the shift. *)
Lemma digits_div_bounds p :
  53 <= Zpos (digits2_pos p) ->
  2 ^ 52 <= Zpos p / 2 ^ (Zpos (digits2_pos p) - 53) < 2 ^ 53.
Proof.
  intros Hd. pose proof (digits2_bounds p) as [B1 B2].
  set (d := Zpos (digits2_pos p)) in *.
  assert (Hp : 0 < 2 ^ (d - 53)) by (apply Z.pow_pos_nonneg; lia).
  assert (E1 : 2 ^ (d - 1) = 2 ^ (d - 53) * 2 ^ 52)
    by (rewrite <- Z.pow_add_r by lia; f_equal; lia).
  assert (E2 : 2 ^ d = 2 ^ (d - 53) * 2 ^ 53)
    by (rewrite <- Z.pow_add_r by lia; f_equal; lia).
  rewrite E1 in B1. rewrite E2 in B2.
  split.
  - apply Z.div_le_lower_bound; lia.
  - apply Z.div_lt_upper_bound; lia.
Qed.

(** The result of rounding a mantissa of at least 53 bits: the shifted
    mantissa or its successor [R], the shifted mantissa itself when the
    input was exact or the bit shifted out last is 0, renormalised when
    [R] reaches [2^53]. *)
Lemma binary_round_aux_spec p e l :
  53 <= Zpos (digits2_pos p) ->
  -1021 <= Zpos (digits2_pos p) + e ->
  e + (Zpos (digits2_pos p) - 53) + 1 <= 971 ->
  exists R m2 n2,
    binary_round_aux 53 1024 false (Zpos p) e l =
      S754_finite false m2 (e + (Zpos (digits2_pos p) - 53) + n2) /\
    Zpos p / 2 ^ (Zpos (digits2_pos p) - 53) <= R <= Zpos p / 2 ^ (Zpos (digits2_pos p) - 53) + 1 /\
    (l = loc_Exact -> Zpos (digits2_pos p) = 53 -> R = Zpos p) /\
    (53 < Zpos (digits2_pos p) ->
     Z.odd (Zpos p / 2 ^ (Zpos (digits2_pos p) - 54)) = false ->
     R = Zpos p / 2 ^ (Zpos (digits2_pos p) - 53)) /\
    (R < 2 ^ 53 /\ n2 = 0 /\ Zpos m2 = R \/
     R = 2 ^ 53 /\ n2 = 1 /\ Zpos m2 = 2 ^ 52).
Proof.
  intros Hd He Hmax.
  pose proof (digits_div_bounds p Hd) as Hm1.
  destruct (shr_fexp_spec p e l He) as (mrs & Hs & Hm & Hrec & Hr).
  set (d := Zpos (digits2_pos p)) in *.
  replace (Z.max 0 (d - 53)) with (d - 53) in Hs, Hm by lia.
  set (m1 := Zpos p / 2 ^ (d - 53)) in *.
  set (R := round_nearest_even (shr_m mrs) (loc_of_shr_record mrs)).
  assert (HR : m1 <= R <= m1 + 1).
  { unfold R. rewrite <- Hm. apply rne_bounds. }
  assert (HRp : exists r, R = Zpos r).
  { destruct R as [|r|r]; try lia. exists r; reflexivity. }
  destruct HRp as [r Hr'].
  unfold binary_round_aux. rewrite Hs. fold R. rewrite Hr'.
  assert (Hcase : R < 2 ^ 53 \/ R = 2 ^ 53) by lia.
  destruct Hcase as [Hlt | Heq].
  - assert (Hdr : Zpos (digits2_pos r) = 53).
    { apply digits2_unique; [lia|]. rewrite <- Hr'. simpl Z.sub. lia. }
    destruct (shr_fexp_spec r (e + (d - 53)) loc_Exact ltac:(lia)) as (mrs2 & Hs2 & Hm2 & Hrec2 & _).
    rewrite Hdr in Hs2, Hm2.
    change (Z.max 0 (53 - 53)) with 0 in Hs2, Hm2.
    rewrite Hs2. rewrite Z.pow_0_r, Z.div_1_r in Hm2. rewrite Hm2.
    replace (e + (d - 53) + 0 <=? 1024 - 53) with true by (symmetry; apply Z.leb_le; lia).
    exists R, r, 0.
    split; [rewrite Z.add_0_r; reflexivity|].
    split; [exact HR|].
    split; [intros Hl Hd53; unfold R; rewrite Hrec, Hl by lia; reflexivity|].
    split; [intros Hd54 Hodd; unfold R; rewrite rne_low by (rewrite Hr; assumption);
            exact Hm|].
    left. repeat split; auto.
  - assert (Hdr : Zpos (digits2_pos r) = 54).
    { apply digits2_unique; [lia|]. rewrite <- Hr', Heq. simpl; lia. }
    destruct (shr_fexp_spec r (e + (d - 53)) loc_Exact ltac:(lia)) as (mrs2 & Hs2 & Hm2 & Hrec2 & _).
    rewrite Hdr in Hs2, Hm2.
    change (Z.max 0 (54 - 53)) with 1 in Hs2, Hm2.
    rewrite Hs2. rewrite <- Hr', Heq in Hm2. change (2 ^ 53 / 2 ^ 1) with (2 ^ 52) in Hm2.
    rewrite Hm2. change (2 ^ 52) with (Zpos (2 ^ 52)%positive).
    replace (e + (d - 53) + 1 <=? 1024 - 53) with true by (symmetry; apply Z.leb_le; lia).
    exists R, (2 ^ 52)%positive, 1.
    split; [reflexivity|].
    split; [exact HR|].
    split; [intros Hl Hd53; unfold R; rewrite Hrec, Hl by lia; reflexivity|].
    split; [intros Hd54 Hodd; unfold R; rewrite rne_low by (rewrite Hr; assumption);
            exact Hm|].
    right. repeat split; auto.
Qed.

(** *** Conversion of an integer *)

Lemma pos_iter_xO p d : Zpos (Pos.iter xO p d) = Zpos p * 2 ^ Zpos d.
Proof.
  rewrite (Pos.iter_swap_gen _ _ Zpos xO (Z.mul 2)) by reflexivity.
  change (Pos.iter (Z.mul 2) (Zpos p) d) with (Z.shiftl (Zpos p) (Zpos d)).
  apply Z.shiftl_mul_pow2; lia.
Qed.

Lemma shl_align_spec p ex ex' :
  snd (shl_align p ex ex') = Z.min ex ex' /\
  Zpos (fst (shl_align p ex ex')) = Zpos p * 2 ^ (ex - Z.min ex ex').
Proof.
  unfold shl_align. destruct (ex' - ex) as [|d|d] eqn:Hd; cbn [fst snd].
  - replace (Z.min ex ex') with ex by lia. rewrite Z.sub_diag, Z.pow_0_r. lia.
  - replace (Z.min ex ex') with ex by lia. rewrite Z.sub_diag, Z.pow_0_r. lia.
  - replace (Z.min ex ex') with ex' by lia. rewrite pos_iter_xO.
    split; [reflexivity|]. do 2 f_equal. lia.
Qed.

Lemma pow2_pos n : 0 <= n -> 0 < 2 ^ n.
Proof. intros; apply Z.pow_pos_nonneg; lia. Qed.

Lemma pow2_split a b : 0 <= a -> 0 <= b -> 2 ^ (a + b) = 2 ^ a * 2 ^ b.
Proof. intros; apply Z.pow_add_r; assumption. Qed.

(** [float64(n)] is exact for [0 < n < 2^53]: the mantissa is [n] moved up to 53 bits. *)
Lemma float64_of_pos_shape p :
  Zpos p < 2 ^ 53 ->
  exists m,
    binary_normalize 53 1024 (Zpos p) 0 false =
      S754_finite false m (Zpos (digits2_pos p) - 53) /\
    Zpos m = Zpos p * 2 ^ (53 - Zpos (digits2_pos p)).
Proof.
  intros Hlt. pose proof (digits2_bounds p) as [B1 B2].
  set (d := Zpos (digits2_pos p)) in *.
  assert (Hd1 : 1 <= d) by (unfold d; lia).
  assert (Hd53 : d <= 53).
  { destruct (Z.le_gt_cases d 53) as [|Hgt]; [assumption|].
    assert (2 ^ 53 <= 2 ^ (d - 1)) by (apply Z.pow_le_mono_r; lia). lia. }
  cbn [binary_normalize]. unfold binary_round. fold d.
  rewrite Z.add_0_r, fexp_normal by lia.
  destruct (shl_align_spec p 0 (d - 53)) as [Hs Hm].
  destruct (shl_align p 0 (d - 53)) as [mz ez]. cbn [fst snd] in Hs, Hm.
  replace (Z.min 0 (d - 53)) with (d - 53) in Hs, Hm by lia.
  replace (0 - (d - 53)) with (53 - d) in Hm by lia.
  subst ez.
  assert (Hdz : Zpos (digits2_pos mz) = 53).
  { apply digits2_unique; [lia|]. rewrite Hm.
    assert (E1 : 2 ^ (53 - 1) = 2 ^ (d - 1) * 2 ^ (53 - d))
      by (rewrite <- pow2_split by lia; f_equal; lia).
    assert (E2 : 2 ^ 53 = 2 ^ d * 2 ^ (53 - d))
      by (rewrite <- pow2_split by lia; f_equal; lia).
    rewrite E1, E2. pose proof (pow2_pos (53 - d) ltac:(lia)). nia. }
  destruct (binary_round_aux_spec mz (d - 53) loc_Exact) as (R & m2 & n2 & Hr & HR & Hex & _ & Hn);
    try lia.
  rewrite Hdz in Hr. specialize (Hex eq_refl Hdz).
  assert (HRlt : R < 2 ^ 53).
  { rewrite Hex. pose proof (digits2_bounds mz) as [_ Bz]. rewrite Hdz in Bz. exact Bz. }
  destruct Hn as [(_ & -> & Hm2) | (Heq & _)]; [|lia].
  exists m2. rewrite Hr. split; [f_equal; lia|]. rewrite Hm2, Hex. exact Hm.
Qed.

(** *** The quotient [float64(nsec)/1e9] *)

Lemma div_eucl_div_mod a b : Z.div_eucl a b = (a / b, a mod b).
Proof. unfold Z.div, Z.modulo. destruct (Z.div_eucl a b); reflexivity. Qed.

Lemma float64_1e9 :
  binary_normalize 53 1024 1000000000 0 false = S754_finite false Time.mant_1e9 (-23).
Proof. reflexivity. Qed.

Lemma digits_between p :
  2 ^ 52 <= Zpos p < 2 ^ 54 ->
  Zpos (digits2_pos p) = 53 \/ Zpos (digits2_pos p) = 54.
Proof.
  intros [H1 H2]. pose proof (digits2_bounds p) as [B1 B2].
  set (d := Zpos (digits2_pos p)) in *.
  assert (0 < d) by (unfold d; lia).
  assert (52 < d) by (apply (Z.pow_lt_mono_r_iff 2); lia).
  assert (d - 1 < 54) by (apply (Z.pow_lt_mono_r_iff 2); lia).
  lia.
Qed.

(** Rounding a quotient [q * 2^e] that is at most [1 - 1e-9] to 53 bits
    leaves it below [1 - 2^-30]. *)
Lemma round_quotient_bound pq e l :
  2 ^ 52 <= Zpos pq < 2 ^ 54 ->
  53 <= - e <= 83 ->
  Zpos pq * 1000000000 <= 999999999 * 2 ^ (- e) ->
  exists my ey,
    binary_round_aux 53 1024 false (Zpos pq) e l = S754_finite false my ey /\
    ey <= -53 /\
    Zpos my * 2 ^ 30 < (2 ^ 30 - 1) * 2 ^ (- ey).
Proof.
  intros Hq He HqK.
  assert (HK : 2 ^ 53 <= 2 ^ (- e)) by (apply Z.pow_le_mono_r; lia).
  pose proof (digits_div_bounds pq) as Hm1.
  destruct (binary_round_aux_spec pq e l) as (R & m2 & n2 & Hr & HR & _ & _ & Hcase);
    try (destruct (digits_between pq Hq) as [-> | ->]; lia).
  set (d := Zpos (digits2_pos pq)) in *.
  assert (Hd : d = 53 \/ d = 54) by (apply digits_between; exact Hq).
  specialize (Hm1 ltac:(lia)).
  set (m1 := Zpos pq / 2 ^ (d - 53)) in *.
  exists m2, (e + (d - 53) + n2). split; [exact Hr|].
  (* value of the result, scaled back to the exponent e *)
  assert (Hscale : exists c, 0 < c /\ 2 ^ (- e) = c * 2 ^ (- (e + (d - 53) + n2)) /\
                             Zpos m2 * c <= Zpos pq + 2 /\ 0 <= - (e + (d - 53) + n2)).
  { assert (Hm1q : m1 * 2 ^ (d - 53) <= Zpos pq).
    { unfold m1. rewrite Z.mul_comm. apply Z.mul_div_le. apply pow2_pos; lia. }
    assert (Hn2 : (n2 = 0 \/ n2 = 1) /\ Zpos m2 * 2 ^ n2 = R).
    { destruct Hcase as [(_ & -> & ->) | (-> & -> & ->)]; split; auto; lia. }
    destruct Hn2 as [Hn2 Hm2].
    exists (2 ^ ((d - 53) + n2)). split; [apply pow2_pos; lia|].
    split; [rewrite <- pow2_split by lia; f_equal; lia|].
    split; [|lia].
    rewrite pow2_split by lia.
    assert (Hp : 2 ^ (d - 53) = 1 \/ 2 ^ (d - 53) = 2) by (destruct Hd as [-> | ->]; auto).
    assert (Hp2 : 2 ^ n2 = 1 \/ 2 ^ n2 = 2) by (destruct Hn2 as [-> | ->]; auto).
    destruct Hcase as [(Hlt & -> & Hm) | (Heq & -> & Hm)].
    - rewrite Z.pow_0_r, Hm. nia.
    - rewrite Z.pow_1_r, Hm.
      (* R = 2^53 forces the first shift to have rounded up from 2^53 - 1 *)
      nia. }
  destruct Hscale as (c & Hc & HKc & Hmc & Hey).
  set (X := 2 ^ (- (e + (d - 53) + n2))) in *.
  assert (HX : 0 < X) by (apply pow2_pos; lia).
  assert (Hbound : Zpos m2 * 2 ^ 30 < (2 ^ 30 - 1) * X).
  { apply (Z.mul_lt_mono_pos_r c); [exact Hc|].
    rewrite HKc in HqK, HK. nia. }
  split; [|exact Hbound].
  assert (Hm52 : 2 ^ 52 <= Zpos m2).
  { destruct Hcase as [(_ & _ & ->) | (_ & _ & ->)]; lia. }
  destruct (Z.le_gt_cases (e + (d - 53) + n2) (-53)) as [|Hgt]; [assumption|].
  assert (X <= 2 ^ 52) by (apply Z.pow_le_mono_r; lia). lia.
Qed.

(** The quotient [float64(nsec)/1e9] stays clear of 1. *)
Lemma nsec_quotient_bound pn :
  Zpos pn < 1000000000 ->
  exists my ey,
    SFdiv 53 1024 (binary_normalize 53 1024 (Zpos pn) 0 false)
                  (binary_normalize 53 1024 1000000000 0 false) =
      S754_finite false my ey /\
    ey <= -53 /\
    Zpos my * 2 ^ 30 < (2 ^ 30 - 1) * 2 ^ (- ey).
Proof.
  intros Hlt9.
  destruct (float64_of_pos_shape pn) as (mx & Hx & Hmx); [lia|].
  pose proof (digits2_bounds pn) as [Bn1 Bn2].
  set (dn := Zpos (digits2_pos pn)) in *.
  assert (Hdn1 : 1 <= dn) by (unfold dn; lia).
  assert (Hdn30 : dn <= 30).
  { destruct (Z.le_gt_cases dn 30) as [|Hgt]; [assumption|].
    assert (2 ^ 30 <= 2 ^ (dn - 1)) by (apply Z.pow_le_mono_r; lia). lia. }
  rewrite Hx, float64_1e9.
  (* the mantissa of float64(nsec) *)
  assert (Hx52 : 2 ^ 52 <= Zpos mx < 2 ^ 53).
  { rewrite Hmx.
    assert (E1 : 2 ^ 52 = 2 ^ (dn - 1) * 2 ^ (53 - dn))
      by (rewrite <- pow2_split by lia; f_equal; lia).
    assert (E2 : 2 ^ 53 = 2 ^ dn * 2 ^ (53 - dn))
      by (rewrite <- pow2_split by lia; f_equal; lia).
    rewrite E1, E2. pose proof (pow2_pos (53 - dn) ltac:(lia)). nia. }
  assert (Hdx : Zpos (digits2_pos mx) = 53) by (apply digits2_unique; [lia | exact Hx52]).
  (* the core division *)
  cbn [SFdiv]. unfold SFdiv_core_binary. cbn [Zdigits2]. rewrite Hdx.
  change (Zpos (digits2_pos Time.mant_1e9)) with 53.
  replace (53 + (dn - 53) - (53 + -23)) with (dn - 30) by lia.
  rewrite fexp_normal by lia.
  replace (Z.min (dn - 30 - 53) (dn - 53 - -23)) with (dn - 83) by lia.
  replace (dn - 53 - -23 - (dn - 83)) with 53 by lia.
  cbv iota. rewrite Z.shiftl_mul_pow2 by lia.
  rewrite div_eucl_div_mod. cbn [xorb].
  set (q := Zpos mx * 2 ^ 53 / Zpos Time.mant_1e9).
  set (lz := new_location (Zpos Time.mant_1e9) (Zpos mx * 2 ^ 53 mod Zpos Time.mant_1e9)).
  assert (Hq : 2 ^ 52 <= q < 2 ^ 54).
  { unfold q; split.
    - apply Z.div_le_lower_bound; [lia|]. unfold Time.mant_1e9. lia.
    - apply Z.div_lt_upper_bound; [lia|]. unfold Time.mant_1e9. lia. }
  assert (HqD : q * Zpos Time.mant_1e9 <= Zpos mx * 2 ^ 53).
  { unfold q. rewrite Z.mul_comm. apply Z.mul_div_le. lia. }
  clearbody q. destruct q as [|pq|pq]; try lia.
  apply round_quotient_bound; [exact Hq | lia |].
  replace (- (dn - 83)) with (83 - dn) by lia.
  set (K := 2 ^ (83 - dn)).
  assert (E : Zpos mx * 2 ^ 53 = Zpos pn * K * 2 ^ 23).
  { rewrite Hmx. unfold K.
    replace (83 - dn) with ((53 - dn) + 30) by lia.
    rewrite pow2_split by lia. ring. }
  rewrite E in HqD. unfold Time.mant_1e9 in HqD.
  assert (0 < K) by (apply pow2_pos; lia).
  assert (Zpos pn * K <= 999999999 * K) by (apply Z.mul_le_mono_nonneg_r; lia).
  lia.
Qed.

(** *** The sum [float64(sec) + float64(nsec)/1e9] and its conversion *)

Lemma int_of_float64_neg_exp m e :
  e < 0 -> Time.int_of_float64 (S754_finite false m e) = Zpos m / 2 ^ (- e).
Proof.
  intros He. destruct e as [|p|p]; try lia.
  cbn [Time.int_of_float64]. rewrite Z.shiftr_div_pow2 by lia. reflexivity.
Qed.

(** [float64(sec)] converts back to [sec]. *)
Lemma int_of_float64_of_pos p :
  Zpos p < 2 ^ 53 ->
  Time.int_of_float64 (binary_normalize 53 1024 (Zpos p) 0 false) = Zpos p.
Proof.
  intros Hlt. destruct (float64_of_pos_shape p Hlt) as (m & -> & Hm).
  pose proof (digits2_bounds p) as [B1 B2].
  set (d := Zpos (digits2_pos p)) in *.
  assert (Hd1 : 1 <= d) by (unfold d; lia).
  assert (Hd53 : d <= 53).
  { destruct (Z.le_gt_cases d 53) as [|Hgt]; [assumption|].
    assert (2 ^ 53 <= 2 ^ (d - 1)) by (apply Z.pow_le_mono_r; lia). lia. }
  destruct (Z.eq_dec d 53) as [E | NE].
  - rewrite E in *. change (53 - 53) with 0 in *. cbn [Time.int_of_float64].
    rewrite Z.shiftl_0_r, Hm. change (2 ^ 0) with 1. lia.
  - rewrite int_of_float64_neg_exp by lia.
    replace (- (d - 53)) with (53 - d) by lia. rewrite Hm.
    apply Z.div_mul. pose proof (pow2_pos (53 - d) ltac:(lia)); lia.
Qed.

(** Adding a fraction below [1 - 2^-30] to a whole number of seconds
    below [2^24] cannot round up to the next whole number: [int]
    of the sum is the number of seconds. *)
Lemma add_truncates ps my ey :
  Zpos ps < 2 ^ 24 ->
  ey <= -53 ->
  Zpos my * 2 ^ 30 < (2 ^ 30 - 1) * 2 ^ (- ey) ->
  Time.int_of_float64
    (SFadd 53 1024 (binary_normalize 53 1024 (Zpos ps) 0 false)
                   (S754_finite false my ey)) = Zpos ps.
Proof.
  intros Hs Hey Hy.
  destruct (float64_of_pos_shape ps) as (mx & -> & Hmx); [lia|].
  pose proof (digits2_bounds ps) as [Bs1 Bs2].
  set (ds := Zpos (digits2_pos ps)) in *.
  assert (Hds1 : 1 <= ds) by (unfold ds; lia).
  assert (Hds24 : ds <= 24).
  { destruct (Z.le_gt_cases ds 24) as [|Hgt]; [assumption|].
    assert (2 ^ 24 <= 2 ^ (ds - 1)) by (apply Z.pow_le_mono_r; lia). lia. }
  set (k := - ey) in *.
  set (t := 53 - ds) in *.
  (* the aligned sum *)
  cbn [SFadd cond_Zopp].
  destruct (shl_align_spec mx (ds - 53) (Z.min (ds - 53) ey)) as [_ Hax].
  destruct (shl_align_spec my ey (Z.min (ds - 53) ey)) as [_ Hay].
  replace (Z.min (ds - 53) ey) with ey in * by lia.
  replace (Z.min ey ey) with ey in Hay by lia.
  replace (Z.min (ds - 53) ey) with ey in Hax by lia.
  rewrite Z.sub_diag, Z.pow_0_r, Z.mul_1_r in Hay.
  set (ax := fst (shl_align mx (ds - 53) ey)) in *.
  set (ay := fst (shl_align my ey ey)) in *.
  change (Zpos ax + Zpos ay) with (Zpos (ax + ay)).
  assert (HM : Zpos (ax + ay) = Zpos ps * 2 ^ k + Zpos my).
  { rewrite Pos2Z.inj_add, Hax, Hay, Hmx. f_equal.
    rewrite <- Z.mul_assoc, <- pow2_split by lia.
    do 2 f_equal. unfold k; lia. }
  set (pM := (ax + ay)%positive) in *. clearbody pM. clear Hax Hay ax ay.
  (* powers of two at hand *)
  assert (Hk : 53 <= k) by (unfold k; lia).
  assert (Ht : 29 <= t <= 52) by (unfold t; lia).
  set (n := k - t).
  assert (Hn : 1 <= n) by (unfold n; lia).
  set (a2 := 2 ^ (n - 1)). set (B := 2 ^ t).
  assert (Ha2 : 0 < a2) by (apply pow2_pos; lia).
  assert (HB : 2 ^ 29 <= B) by (apply Z.pow_le_mono_r; lia).
  assert (EA : 2 ^ n = 2 * a2).
  { unfold a2. replace n with (1 + (n - 1)) at 1 by lia.
    rewrite pow2_split by lia. reflexivity. }
  assert (EK : 2 ^ k = 2 * a2 * B).
  { rewrite <- EA. unfold B. rewrite <- pow2_split by lia. f_equal. unfold n; lia. }
  assert (Es1 : 2 ^ (ds - 1) * (2 * B) = 2 ^ 53).
  { replace (2 * B) with (2 ^ (1 + t)) by (rewrite pow2_split by lia; reflexivity).
    rewrite <- pow2_split by lia. f_equal. unfold t; lia. }
  assert (Es2 : 2 ^ ds * B = 2 ^ 53).
  { unfold B. rewrite <- pow2_split by lia. f_equal. unfold t; lia. }
  set (W := a2 * B) in *.
  assert (HW : a2 * 2 ^ 29 <= W) by (unfold W; apply Z.mul_le_mono_nonneg_l; lia).
  assert (EK' : 2 ^ k = 2 * W) by (rewrite EK; unfold W; ring).
  rewrite EK' in HM, Hy.
  (* digits of the sum *)
  assert (HdM : Zpos (digits2_pos pM) = ds + k).
  { apply digits2_unique; [lia|].
    replace (ds + k - 1) with ((ds - 1) + k) by lia.
    rewrite !pow2_split by lia. rewrite EK', HM. nia. }
  cbn [binary_normalize]. unfold binary_round. rewrite HdM.
  rewrite fexp_normal by lia.
  destruct (shl_align_spec pM ey (ds + k + ey - 53)) as [Hz1 Hz2].
  destruct (shl_align pM ey (ds + k + ey - 53)) as [mz ez]. cbn [fst snd] in Hz1, Hz2.
  replace (Z.min ey (ds + k + ey - 53)) with ey in Hz1, Hz2 by lia.
  rewrite Z.sub_diag, Z.pow_0_r, Z.mul_1_r in Hz2.
  injection Hz2 as ->. subst ez.
  (* the rounding *)
  destruct (binary_round_aux_spec pM ey loc_Exact) as (R & m2 & n2 & Hr & HR & _ & Hlow & Hcase);
    try (rewrite HdM; lia).
  rewrite HdM in Hr, HR, Hlow.
  replace (ds + k - 53) with n in Hr, HR, Hlow by (unfold n, t; lia).
  replace (ds + k - 54) with (n - 1) in Hlow by (unfold n, t; lia).
  fold a2 in Hlow. rewrite EA in HR, Hlow.
  assert (Hdiv : Zpos pM / (2 * a2) = Zpos pM / a2 / 2).
  { rewrite Z.div_div by lia. f_equal; lia. }
  rewrite Hdiv in HR, Hlow.
  set (V := Zpos pM / a2) in *.
  assert (HV1 : 2 * Zpos ps * B <= V).
  { unfold V. apply Z.div_le_lower_bound; [lia|]. rewrite HM.
    replace (a2 * (2 * Zpos ps * B)) with (Zpos ps * (2 * W)) by (unfold W; ring).
    lia. }
  assert (HV2 : V <= 2 * (Zpos ps + 1) * B - 2).
  { assert (V < 2 * (Zpos ps + 1) * B - 1); [|lia].
    unfold V. apply Z.div_lt_upper_bound; [lia|]. rewrite HM.
    replace (a2 * (2 * (Zpos ps + 1) * B - 1))
      with (Zpos ps * (2 * W) + 2 * W - a2) by (unfold W; ring).
    lia. }
  assert (HRb : Zpos ps * B <= R < (Zpos ps + 1) * B).
  { destruct (Z.odd V) eqn:Hodd.
    - rewrite (Zodd_div2 V) in HV1, HV2 by (try apply Zodd_bool_iff; auto; lia).
      rewrite Z.div2_div in *. lia.
    - rewrite (Hlow ltac:(lia) eq_refl).
      pose proof (Z.div_mod V 2 ltac:(lia)) as Hdm.
      rewrite Zmod_even in Hdm. rewrite <- Z.negb_odd, Hodd in Hdm. cbn [negb] in Hdm. lia. }
  destruct Hcase as [(_ & -> & Hm2) | (Heq & _)]; [|nia].
  rewrite Hr, Z.add_0_r.
  rewrite int_of_float64_neg_exp by (unfold n, k, t in *; lia).
  replace (- (ey + n)) with t by (unfold n, k, t; lia).
  fold B. rewrite Hm2.
  symmetry. apply Z.div_unique with (R - Zpos ps * B); lia.
Qed.

(** ** The TTL sent by [Set] *)

(** Below one second the floor of two minutes applies. *)
Lemma ttl_below_one_second (d : Time.Duration) :
  d < Time.Second -> ttl_seconds d = 120.
Proof.
  intros H. unfold ttl_seconds, effective_expire.
  apply Z.ltb_lt in H; rewrite H. reflexivity.
Qed.

(** From one second up to (but excluding) 2^24 seconds, about 194 days,
    the TTL is the expiration truncated to whole seconds. *)
Lemma ttl_truncates_below_2pow24 (d : Time.Duration) :
  Time.Second <= d < 2 ^ 24 * Time.Second ->
  ttl_seconds d = Z.quot d Time.Second.
Proof.
  change Time.Second with 1000000000. intros [Hlo Hhi].
  unfold ttl_seconds, effective_expire.
  change Time.Second with 1000000000.
  replace (d <? 1000000000) with false by (symmetry; apply Z.ltb_ge; exact Hlo).
  unfold Time.Seconds. change Time.Second with 1000000000.
  rewrite Z.quot_div_nonneg, Z.rem_mod_nonneg by lia.
  assert (Hsec : 1 <= d / 1000000000 < 2 ^ 24).
  { split; [apply Z.div_le_lower_bound | apply Z.div_lt_upper_bound]; lia. }
  pose proof (Z.mod_pos_bound d 1000000000 ltac:(lia)) as Hns.
  destruct (d / 1000000000) as [|ps|ps]; try lia.
  unfold Time.fadd, Time.fdiv, Time.float64_of_int, Time.prec, Time.emax.
  destruct (d mod 1000000000) as [|pn|pn]; try lia.
  - destruct (float64_of_pos_shape ps ltac:(lia)) as (m & Hm & _).
    pose proof (int_of_float64_of_pos ps ltac:(lia)) as Hint.
    rewrite Hm in Hint |- *. exact Hint.
  - destruct (nsec_quotient_bound pn ltac:(lia)) as (my & ey & -> & Hey & Hy).
    apply add_truncates; assumption || lia.
Qed.

Example ttl_500ms : ttl_seconds (500 * Time.Millisecond) = 120.
Proof. reflexivity. Qed.

Example ttl_5s : ttl_seconds (5 * Time.Second) = 5.
Proof. reflexivity. Qed.

Example ttl_1999999999ns : ttl_seconds 1999999999 = 1.
Proof. reflexivity. Qed.

Example ttl_max_duration : ttl_seconds Time.max_int64 = 9223372036.
Proof. reflexivity. Qed.

(** C1 (the code at the failing input).  For an item whose expiration
    is 16777216.999999999 seconds, which is not below one second, [Set]
    sends SETEX with TTL 16777217, where truncation to whole seconds
    gives 16777216: the sum computed by [Seconds] in [float64] rounds up
    to the next integer before [int] discards the fraction. *)
Theorem Set_ttl_rounds_up_past_2pow24 :
  Time.Second <= Expiration Toy.long_item /\
  Time.is_int64 (Expiration Toy.long_item) /\
  Z.quot (Expiration Toy.long_item) Time.Second = 16777216 /\
  ttl_seconds (Expiration Toy.long_item) = 16777217 /\
  fst (Cache_Set Toy.env Toy.long_item Toy.s_wired) = Ret None /\
  emitted Toy.s_wired (snd (Cache_Set Toy.env Toy.long_item Toy.s_wired)) =
    [EvMarshal; EvSetex 3%nat "a" 16777217 [Byte.x05]; EvClose 3%nat].
Proof.
  repeat split; try reflexivity; vm_compute; discriminate.
Qed.

(** ** Connection handling on a fresh instance *)

(** C5 (the code at the failing input).  On a freshly constructed
    instance, with a pool that hands out the healthy connection 7, [Get]
    and [Set] take connection 7 from the pool, send no request on it,
    never close it, and panic at [defer conn.Close()] on the nil
    connection that [getConn] returned. *)
Theorem fresh_instance_drops_connection_and_panics :
  conn (Toy.fresh) = None /\
  pool_Get Toy.env 0%nat Toy.world0 = (7%nat, snd (pool_Get Toy.env 0%nat Toy.world0)) /\
  conn_Err Toy.env 7%nat (snd (pool_Get Toy.env 0%nat Toy.world0)) = None /\
  fst (Get Toy.env "k" [] Toy.s_fresh) = Panic /\
  emitted Toy.s_fresh (snd (Get Toy.env "k" [] Toy.s_fresh)) = [EvPoolGet 0%nat 7%nat] /\
  fst (Cache_Set Toy.env Toy.long_item Toy.s_fresh) = Panic /\
  emitted Toy.s_fresh (snd (Cache_Set Toy.env Toy.long_item Toy.s_fresh)) =
    [EvMarshal; EvPoolGet 0%nat 7%nat].
Proof. repeat split. Qed.

(** ** Concrete runs *)

(** C9, as stated, fails: the error [Set] returns is not the marshal
    function's error but a wrapper around it. *)
Lemma Set_marshal_error_is_not_unmodified :
  Toy.marshal (Object Toy.bad_item) = ([], Some (Fault "nothing to encode")) /\
  fst (Cache_Set Toy.env Toy.bad_item Toy.s_wired) =
    Ret (Some (Wrap (Fault "nothing to encode") "marshal failed")) /\
  fst (Cache_Set Toy.env Toy.bad_item Toy.s_wired) <>
    Ret (Some (Fault "nothing to encode")).
Proof. repeat split. discriminate. Qed.

(** C7, as stated, fails: with the miss counter at 2^64 - 1, one [Get]
    of a missing key takes it down to 0. *)
Lemma miss_counter_wraps_to_zero :
  misses (cache Toy.s_full) = 18446744073709551615 /\
  fst (Get Toy.env "nokey" [] Toy.s_full) = Ret (Some ErrCacheMiss, []) /\
  misses (cache (run Toy.env [CallGet "nokey" []] Toy.s_full)) = 0 /\
  ~ (misses (cache Toy.s_full)
     <= misses (cache (run Toy.env [CallGet "nokey" []] Toy.s_full))).
Proof. repeat split. vm_compute. intros H; apply H; reflexivity. Qed.

(** On the sample world every [Get] of a missing key adds one to the
    miss counter, modulo 2^64, and leaves the rest as it was. *)
Lemma toy_misses_accumulate (n : nat) (s : Sys Toy.Obj Toy.World) :
  conn (cache s) = Some 3%nat ->
  world s = Toy.world0 ->
  is_uint64 (misses (cache s)) ->
  let s' := run Toy.env (repeat Toy.get_nokey n) s in
  conn (cache s') = Some 3%nat /\
  world s' = Toy.world0 /\
  hits (cache s') = hits (cache s) /\
  misses (cache s') = (misses (cache s) + Z.of_nat n) mod 2 ^ 64.
Proof.
  revert s; induction n as [|n IH]; intros s Hc Hw Hm.
  - unfold run; cbn [repeat fold_left Z.of_nat]. repeat split; auto.
    rewrite Z.add_0_r. symmetry. apply Z.mod_small.
    destruct Hm as [H0 H1]. split; [exact H0|].
    apply Z.le_lt_trans with max_uint64; [exact H1 | reflexivity].
  - cbn [repeat]. change (run Toy.env (Toy.get_nokey :: repeat Toy.get_nokey n) s)
      with (run Toy.env (repeat Toy.get_nokey n) (exec Toy.env Toy.get_nokey s)).
    assert (G : conn_Get Toy.env 3%nat "nokey" (world s) = (([], Some ErrNil), Toy.world0))
      by (rewrite Hw; reflexivity).
    assert (Hs : exec Toy.env Toy.get_nokey s =
                 {| cache := with_misses (cache s) (AddUint64 (misses (cache s)) 1);
                    world := Toy.world0;
                    log := (log s ++ [EvGet 3%nat "nokey"]) ++ [EvClose 3%nat] |}).
    { unfold exec, Toy.get_nokey.
      rewrite (Get_wired_miss Toy.Obj Toy.World Toy.env s "nokey" []
                 3%nat [] Toy.world0 Hc G).
      reflexivity. }
    rewrite Hs.
    set (s1 := {| cache := with_misses (cache s) (AddUint64 (misses (cache s)) 1);
                  world := Toy.world0;
                  log := (log s ++ [EvGet 3%nat "nokey"]) ++ [EvClose 3%nat] |}).
    destruct (IH s1 Hc eq_refl (AddUint64_range (misses (cache s)))) as (I1 & I2 & I3 & I4).
    repeat split; auto.
    rewrite I4. unfold s1, with_misses, AddUint64. cbn [cache misses].
    rewrite Z.add_mod_idemp_l by lia. f_equal. lia.
Qed.

(** A miss counter at 2^64 - 1 is no artefact of how an instance is
    built: an instance whose counters start at 0 gets there through
    [Get] alone, 2^64 - 1 misses later, and the next miss wraps it. *)
Lemma miss_counter_wrap_is_reached :
  let gets := repeat Toy.get_nokey (Z.to_nat max_uint64) in
  let s0 := Toy.sys (Toy.wired 0 0) Toy.world0 in
  misses (cache (run Toy.env gets s0)) = max_uint64 /\
  misses (cache (run Toy.env (gets ++ [Toy.get_nokey]) s0)) = 0.
Proof.
  intros gets s0.
  assert (R0 : is_uint64 (misses (cache s0))) by (unfold is_uint64, max_uint64; simpl; lia).
  destruct (toy_misses_accumulate (Z.to_nat max_uint64) s0 eq_refl eq_refl R0)
    as (Hc & Hw & _ & Hm).
  fold gets in Hc, Hw, Hm.
  assert (Hmax : misses (cache (run Toy.env gets s0)) = max_uint64).
  { rewrite Hm, Z2Nat.id by (unfold max_uint64; lia). reflexivity. }
  split; [exact Hmax|].
  rewrite run_app. unfold run at 1, exec, Toy.get_nokey; cbn [fold_left].
  assert (G : conn_Get Toy.env 3%nat "nokey" (world (run Toy.env gets s0))
              = (([], Some ErrNil), Toy.world0)) by (rewrite Hw; reflexivity).
  rewrite (Get_wired_miss Toy.Obj Toy.World Toy.env _ "nokey" [] 3%nat [] Toy.world0 Hc G).
  cbn [snd cache with_misses misses]. rewrite Hmax. reflexivity.
Qed.

(** ** The theorems on the sample world *)

Lemma Get_missing_key_is_cache_miss_witness :
  conn (cache Toy.s_wired) = Some 3%nat /\
  conn_Get Toy.env 3%nat "nokey" (world Toy.s_wired) = (([], Some ErrNil), Toy.world0) /\
  (let r := Get Toy.env "nokey" [Byte.x09] Toy.s_wired in
   fst r = Ret (Some ErrCacheMiss, [Byte.x09]) /\
   misses (cache (snd r)) = AddUint64 (misses (cache Toy.s_wired)) 1 /\
   (0 <= misses (cache Toy.s_wired) < max_uint64 ->
    misses (cache (snd r)) = misses (cache Toy.s_wired) + 1) /\
   hits (cache (snd r)) = hits (cache Toy.s_wired)).
Proof.
  split; [reflexivity|]. split; [reflexivity|].
  apply (Get_missing_key_is_cache_miss Toy.Obj Toy.World Toy.env Toy.s_wired "nokey" [Byte.x09]
           3%nat [] Toy.world0); reflexivity.
Defined.

Lemma Get_read_success_counts_hit_witness :
  conn (cache Toy.s_wired) = Some 3%nat /\
  conn_Get Toy.env 3%nat "junk" (world Toy.s_wired) = (([Byte.xff], None), Toy.world0) /\
  (let r := Get Toy.env "junk" [Byte.x09] Toy.s_wired in
   hits (cache (snd r)) = AddUint64 (hits (cache Toy.s_wired)) 1 /\
   (0 <= hits (cache Toy.s_wired) < max_uint64 ->
    hits (cache (snd r)) = hits (cache Toy.s_wired) + 1) /\
   misses (cache (snd r)) = misses (cache Toy.s_wired) /\
   (forall object' e,
       [Byte.xff] <> [] ->
       Unmarshal (cache Toy.s_wired) [Byte.xff] [Byte.x09] = (object', Some e) ->
       fst r = Ret (Some (Wrap e "unmarshal failed"), object') /\
       Cause (Wrap e "unmarshal failed") = Cause e)).
Proof.
  split; [reflexivity|]. split; [reflexivity|].
  apply (Get_read_success_counts_hit Toy.Obj Toy.World Toy.env Toy.s_wired "junk" [Byte.x09]
           3%nat [Byte.xff] Toy.world0); reflexivity.
Defined.

Lemma Get_empty_payload_skips_decode_witness :
  conn (cache Toy.s_wired) = Some 3%nat /\
  conn_Get Toy.env 3%nat "empty" (world Toy.s_wired) = (([], None), Toy.world0) /\
  (let r := Get Toy.env "empty" [Byte.x09] Toy.s_wired in
   fst r = Ret (None, [Byte.x09]) /\
   hits (cache (snd r)) = AddUint64 (hits (cache Toy.s_wired)) 1 /\
   emitted Toy.s_wired (snd r) = [EvGet 3%nat "empty"; EvClose 3%nat] /\
   (forall b, ~ In (EvUnmarshal b) (emitted Toy.s_wired (snd r)))).
Proof.
  split; [reflexivity|]. split; [reflexivity|].
  apply (Get_empty_payload_skips_decode Toy.Obj Toy.World Toy.env Toy.s_wired "empty" [Byte.x09]
           3%nat Toy.world0); reflexivity.
Defined.

(** A world whose next read fails in transport. *)
Lemma Get_read_fault_counts_nothing_witness :
  let w := {| Toy.next_conn := 7%nat; Toy.pool_fault := None;
              Toy.read_fault := Some (Fault "connection reset");
              Toy.write_fault := None; Toy.store := [] |} in
  let s := Toy.sys (Toy.wired 5 6) w in
  conn (cache s) = Some 3%nat /\
  conn_Get Toy.env 3%nat "k" (world s) = (([], Some (Fault "connection reset")), w) /\
  Fault "connection reset" <> ErrNil /\
  (let r := Get Toy.env "k" [Byte.x09] s in
   fst r = Ret (Some (Wrap (Fault "connection reset") "Redis GET failed"), [Byte.x09]) /\
   Cause (Wrap (Fault "connection reset") "Redis GET failed") = Cause (Fault "connection reset") /\
   hits (cache (snd r)) = hits (cache s) /\
   misses (cache (snd r)) = misses (cache s)).
Proof.
  intros w s.
  split; [reflexivity|]. split; [reflexivity|]. split; [discriminate|].
  apply (Get_read_fault_counts_nothing Toy.Obj Toy.World Toy.env s "k" [Byte.x09] 3%nat []
           (Fault "connection reset") w); [reflexivity | reflexivity | discriminate].
Defined.

Lemma Get_failure_leaves_destination_witness :
  fst (Get Toy.env "nokey" [Byte.x09] Toy.s_wired) = Ret (Some ErrCacheMiss, [Byte.x09]) /\
  (ErrCacheMiss = ErrCacheMiss \/ (exists e, ErrCacheMiss = Wrap e "Redis GET failed")) /\
  [Byte.x09] = [Byte.x09] /\
  (forall b, ~ In (EvUnmarshal b)
               (emitted Toy.s_wired (snd (Get Toy.env "nokey" [Byte.x09] Toy.s_wired)))).
Proof.
  split; [reflexivity|]. split; [left; reflexivity|].
  apply (proj1 (Get_failure_leaves_destination Toy.Obj Toy.World Toy.env Toy.s_wired "nokey" [Byte.x09])
           ErrCacheMiss [Byte.x09]); [reflexivity | left; reflexivity].
Defined.

Lemma Set_marshal_failure_is_wrapped_witness :
  Marshal (cache Toy.s_wired) (Object Toy.bad_item) = ([], Some (Fault "nothing to encode")) /\
  (let r := Cache_Set Toy.env Toy.bad_item Toy.s_wired in
   fst r = Ret (Some (Wrap (Fault "nothing to encode") "marshal failed")) /\
   Cause (Wrap (Fault "nothing to encode") "marshal failed") = Cause (Fault "nothing to encode") /\
   emitted Toy.s_wired (snd r) = [EvMarshal] /\
   cache (snd r) = cache Toy.s_wired /\
   world (snd r) = world Toy.s_wired).
Proof.
  split; [reflexivity|].
  apply (Set_marshal_failure_is_wrapped Toy.Obj Toy.World Toy.env Toy.s_wired Toy.bad_item []
           (Fault "nothing to encode")); reflexivity.
Defined.

Lemma getConn_discards_acquired_connection_witness :
  conn (cache Toy.s_fresh) = None /\
  pool_Get Toy.env (Redis (cache Toy.s_fresh)) (world Toy.s_fresh) =
    (7%nat, snd (pool_Get Toy.env 0%nat Toy.world0)) /\
  conn_Err Toy.env 7%nat (snd (pool_Get Toy.env 0%nat Toy.world0)) = None /\
  (fst (getConn Toy.env Toy.s_fresh) = Ret (None, None) /\
   emitted Toy.s_fresh (snd (getConn Toy.env Toy.s_fresh)) =
     [EvPoolGet (Redis (cache Toy.s_fresh)) 7%nat] /\
   cache (snd (getConn Toy.env Toy.s_fresh)) = cache Toy.s_fresh /\
   (forall cs : list (Call Toy.Obj), conn (cache (run Toy.env cs Toy.s_fresh)) = None)).
Proof.
  split; [reflexivity|]. split; [reflexivity|]. split; [reflexivity|].
  apply (getConn_discards_acquired_connection Toy.Obj Toy.World Toy.env Toy.s_fresh 7%nat
           (snd (pool_Get Toy.env 0%nat Toy.world0))); reflexivity.
Defined.

Lemma counters_monotone_until_wrap_witness :
  is_uint64 (hits (cache Toy.s_wired)) /\
  is_uint64 (misses (cache Toy.s_wired)) /\
  (let s1 := run Toy.env [CallGet "k" [Byte.x09]] Toy.s_wired in
   let s2 := run Toy.env ([CallGet "k" [Byte.x09]] ++ [CallSet Toy.long_item]) Toy.s_wired in
   ((exists item, CallSet Toy.long_item = CallSet item) \/ CallSet Toy.long_item = CallStats ->
    hits (cache s2) = hits (cache s1) /\ misses (cache s2) = misses (cache s1)) /\
   (hits (cache s1) < max_uint64 ->
    hits (cache s1) <= hits (cache s2) <= hits (cache s1) + 1) /\
   (misses (cache s1) < max_uint64 ->
    misses (cache s1) <= misses (cache s2) <= misses (cache s1) + 1) /\
   (hits (cache s1) = max_uint64 ->
    hits (cache s2) = max_uint64 \/ hits (cache s2) = 0) /\
   (misses (cache s1) = max_uint64 ->
    misses (cache s2) = max_uint64 \/ misses (cache s2) = 0)).
Proof.
  assert (R5 : is_uint64 5) by (unfold is_uint64, max_uint64; lia).
  assert (R6 : is_uint64 6) by (unfold is_uint64, max_uint64; lia).
  split; [exact R5|]. split; [exact R6|].
  apply (counters_monotone_until_wrap Toy.Obj Toy.World Toy.env Toy.s_wired
           [CallGet "k" [Byte.x09]] (CallSet Toy.long_item)); assumption.
Defined.

(** * The TTL over the whole range of durations *)

(** Adding a fraction below 1 to a whole number of seconds below [2^34]
    gives, after [int], that number or the next one. *)
Lemma add_within_one ps my ey :
  Zpos ps < 2 ^ 34 ->
  ey <= -53 ->
  Zpos my < 2 ^ (- ey) ->
  Zpos ps <=
  Time.int_of_float64
    (SFadd 53 1024 (binary_normalize 53 1024 (Zpos ps) 0 false)
                   (S754_finite false my ey)) <= Zpos ps + 1.
Proof.
  intros Hs Hey Hy.
  destruct (float64_of_pos_shape ps) as (mx & -> & Hmx); [lia|].
  pose proof (digits2_bounds ps) as [Bs1 Bs2].
  set (ds := Zpos (digits2_pos ps)) in *.
  assert (Hds1 : 1 <= ds) by (unfold ds; lia).
  assert (Hds34 : ds <= 34).
  { destruct (Z.le_gt_cases ds 34) as [|Hgt]; [assumption|].
    assert (2 ^ 34 <= 2 ^ (ds - 1)) by (apply Z.pow_le_mono_r; lia). lia. }
  set (k := - ey) in *.
  set (t := 53 - ds) in *.
  cbn [SFadd cond_Zopp].
  destruct (shl_align_spec mx (ds - 53) (Z.min (ds - 53) ey)) as [_ Hax].
  destruct (shl_align_spec my ey (Z.min (ds - 53) ey)) as [_ Hay].
  replace (Z.min (ds - 53) ey) with ey in * by lia.
  replace (Z.min ey ey) with ey in Hay by lia.
  replace (Z.min (ds - 53) ey) with ey in Hax by lia.
  rewrite Z.sub_diag, Z.pow_0_r, Z.mul_1_r in Hay.
  set (ax := fst (shl_align mx (ds - 53) ey)) in *.
  set (ay := fst (shl_align my ey ey)) in *.
  change (Zpos ax + Zpos ay) with (Zpos (ax + ay)).
  assert (HM : Zpos (ax + ay) = Zpos ps * 2 ^ k + Zpos my).
  { rewrite Pos2Z.inj_add, Hax, Hay, Hmx. f_equal.
    rewrite <- Z.mul_assoc, <- pow2_split by lia.
    do 2 f_equal. unfold k; lia. }
  set (pM := (ax + ay)%positive) in *. clearbody pM. clear Hax Hay ax ay.
  assert (Hk : 53 <= k) by (unfold k; lia).
  assert (Ht : 19 <= t <= 52) by (unfold t; lia).
  set (n := k - t).
  assert (Hn : 1 <= n) by (unfold n; lia).
  set (a2 := 2 ^ (n - 1)). set (B := 2 ^ t). set (b2 := 2 ^ (t - 1)).
  assert (Ha2 : 0 < a2) by (apply pow2_pos; lia).
  assert (Hb2 : 0 < b2) by (apply pow2_pos; lia).
  assert (EB : B = 2 * b2).
  { unfold B, b2. replace t with (1 + (t - 1)) at 1 by lia.
    rewrite pow2_split by lia. reflexivity. }
  assert (EA : 2 ^ n = 2 * a2).
  { unfold a2. replace n with (1 + (n - 1)) at 1 by lia.
    rewrite pow2_split by lia. reflexivity. }
  assert (EK : 2 ^ k = 2 * a2 * B).
  { rewrite <- EA. unfold B. rewrite <- pow2_split by lia. f_equal. unfold n; lia. }
  assert (Es1 : 2 ^ (ds - 1) * (2 * B) = 2 ^ 53).
  { replace (2 * B) with (2 ^ (1 + t)) by (rewrite pow2_split by lia; reflexivity).
    rewrite <- pow2_split by lia. f_equal. unfold t; lia. }
  assert (Es2 : 2 ^ ds * B = 2 ^ 53).
  { unfold B. rewrite <- pow2_split by lia. f_equal. unfold t; lia. }
  set (W := a2 * B) in *.
  assert (EK' : 2 ^ k = 2 * W) by (rewrite EK; unfold W; ring).
  rewrite EK' in HM, Hy.
  assert (HdM : Zpos (digits2_pos pM) = ds + k).
  { apply digits2_unique; [lia|].
    replace (ds + k - 1) with ((ds - 1) + k) by lia.
    rewrite !pow2_split by lia. rewrite EK', HM. nia. }
  cbn [binary_normalize]. unfold binary_round. rewrite HdM.
  rewrite fexp_normal by lia.
  destruct (shl_align_spec pM ey (ds + k + ey - 53)) as [Hz1 Hz2].
  destruct (shl_align pM ey (ds + k + ey - 53)) as [mz ez]. cbn [fst snd] in Hz1, Hz2.
  replace (Z.min ey (ds + k + ey - 53)) with ey in Hz1, Hz2 by lia.
  rewrite Z.sub_diag, Z.pow_0_r, Z.mul_1_r in Hz2.
  injection Hz2 as ->. subst ez.
  destruct (binary_round_aux_spec pM ey loc_Exact) as (R & m2 & n2 & Hr & HR & _ & _ & Hcase);
    try (rewrite HdM; lia).
  rewrite HdM in Hr, HR.
  replace (ds + k - 53) with n in Hr, HR by (unfold n, t; lia).
  rewrite EA in HR.
  assert (Hdiv : Zpos pM / (2 * a2) = Zpos pM / a2 / 2).
  { rewrite Z.div_div by lia. f_equal; lia. }
  rewrite Hdiv in HR.
  set (V := Zpos pM / a2) in *.
  assert (HV1 : 2 * Zpos ps * B <= V).
  { unfold V. apply Z.div_le_lower_bound; [lia|]. rewrite HM.
    replace (a2 * (2 * Zpos ps * B)) with (Zpos ps * (2 * W)) by (unfold W; ring).
    lia. }
  assert (HV2 : V < 2 * (Zpos ps + 1) * B).
  { unfold V. apply Z.div_lt_upper_bound; [lia|]. rewrite HM.
    replace (a2 * (2 * (Zpos ps + 1) * B))
      with (Zpos ps * (2 * W) + 2 * W) by (unfold W; ring).
    lia. }
  assert (HRb : Zpos ps * B <= R <= (Zpos ps + 1) * B).
  { pose proof (Z.div_mod V 2 ltac:(lia)) as Hdm.
    pose proof (Z.mod_pos_bound V 2 ltac:(lia)) as Hmb. lia. }
  destruct Hcase as [(_ & -> & Hm2) | (Heq & -> & Hm2)].
  - rewrite Hr, Z.add_0_r.
    rewrite int_of_float64_neg_exp by (unfold n, k, t in *; lia).
    replace (- (ey + n)) with t by (unfold n, k, t; lia).
    fold B. rewrite Hm2. split.
    + apply Z.div_le_lower_bound; lia.
    + apply Z.div_le_upper_bound; [lia|]. nia.
  - rewrite Hr.
    rewrite int_of_float64_neg_exp by (unfold n, k, t in *; lia).
    replace (- (ey + n + 1)) with (t - 1) by (unfold n, k, t; lia).
    fold b2. rewrite Hm2.
    assert (E52 : 2 ^ 52 = 2 ^ ds * b2) by (rewrite EB in Es2; lia).
    rewrite E52, Z.div_mul by lia.
    assert (Zpos ps + 1 = 2 ^ ds) by nia.
    lia.
Qed.

(** From one second on, over the whole range of [int64], the TTL is the
    truncated expiration or one more. *)
Lemma ttl_bounds_from_one_second (d : Time.Duration) :
  Time.Second <= d <= Time.max_int64 ->
  Z.quot d Time.Second <= ttl_seconds d <= Z.quot d Time.Second + 1.
Proof.
  change Time.Second with 1000000000. unfold Time.max_int64. intros [Hlo Hhi].
  unfold ttl_seconds, effective_expire.
  change Time.Second with 1000000000.
  replace (d <? 1000000000) with false by (symmetry; apply Z.ltb_ge; exact Hlo).
  unfold Time.Seconds. change Time.Second with 1000000000.
  rewrite Z.quot_div_nonneg, Z.rem_mod_nonneg by lia.
  assert (Hsec : 1 <= d / 1000000000 < 2 ^ 34).
  { split; [apply Z.div_le_lower_bound | apply Z.div_lt_upper_bound]; lia. }
  pose proof (Z.mod_pos_bound d 1000000000 ltac:(lia)) as Hns.
  destruct (d / 1000000000) as [|ps|ps]; try lia.
  unfold Time.fadd, Time.fdiv, Time.float64_of_int, Time.prec, Time.emax.
  destruct (d mod 1000000000) as [|pn|pn]; try lia.
  - destruct (float64_of_pos_shape ps ltac:(lia)) as (m & Hm & _).
    pose proof (int_of_float64_of_pos ps ltac:(lia)) as Hint.
    rewrite Hm in Hint |- *. rewrite float64_1e9.
    cbn [SFdiv binary_normalize xorb SFadd]. rewrite Hint. lia.
  - destruct (nsec_quotient_bound pn ltac:(lia)) as (my & ey & -> & Hey & Hy).
    apply add_within_one; try assumption; lia.
Qed.

(** X1.  For every expiration from one second up to 2^24 seconds
    (excluded; about 194 days) the TTL sent with SETEX is the expiration
    truncated to whole seconds: on that range the detour of
    [int(expire.Seconds())] through [float64] loses nothing. *)
Theorem ttl_is_truncation_below_2pow24 (d : Time.Duration) :
  Time.Second <= d < 2 ^ 24 * Time.Second ->
  ttl_seconds d = Z.quot d Time.Second /\
  Time.Second * ttl_seconds d <= d < Time.Second * (ttl_seconds d + 1).
Proof.
  intros H. rewrite (ttl_truncates_below_2pow24 d H).
  split; [reflexivity|].
  revert H. change Time.Second with 1000000000. intros H.
  rewrite Z.quot_div_nonneg by lia.
  pose proof (Z.div_mod d 1000000000 ltac:(lia)).
  pose proof (Z.mod_pos_bound d 1000000000 ltac:(lia)). lia.
Qed.

(** X2.  For every expiration of one second or more that an [int64]
    can hold, the TTL sent is the expiration truncated to whole seconds
    or that number plus one, never less and never further off. *)
Theorem ttl_within_one_second_of_truncation (d : Time.Duration) :
  Time.Second <= d ->
  Time.is_int64 d ->
  Z.quot d Time.Second <= ttl_seconds d <= Z.quot d Time.Second + 1.
Proof.
  intros Hlo [_ Hhi]. apply ttl_bounds_from_one_second. split; assumption.
Qed.

(** X3.  Whatever expiration the item carries (negative, zero, below
    or above one second), the TTL sent with SETEX is at least one
    second: [Set] never asks the store for a zero or negative TTL. *)
Theorem ttl_is_at_least_one_second (d : Time.Duration) :
  Time.is_int64 d -> 1 <= ttl_seconds d.
Proof.
  intros [Hmin Hmax].
  destruct (Z.lt_ge_cases d Time.Second) as [Hlt | Hge].
  - rewrite (ttl_below_one_second d Hlt). lia.
  - destruct (ttl_bounds_from_one_second d (conj Hge Hmax)) as [Hq _].
    assert (1 <= Z.quot d Time.Second); [|lia].
    revert Hge. change Time.Second with 1000000000. intros Hge.
    rewrite Z.quot_div_nonneg by lia.
    apply Z.div_le_lower_bound; lia.
Qed.

(** * Further properties of the methods *)

Section Paths.

Variables (Obj World : Type) (E : Env World).

Implicit Types (s : Sys Obj World) (key : string) (object : Obj) (cn : Conn).

(** What [Get] adds to the log when the field holds [cn]: the read,
    at most one decode, the close. *)
Lemma Get_wired_events s key object cn :
  conn (cache s) = Some cn ->
  emitted s (snd (Get E key object s)) = [EvGet cn key; EvClose cn] \/
  exists b, b <> [] /\
    emitted s (snd (Get E key object s)) = [EvGet cn key; EvUnmarshal b; EvClose cn].
Proof.
  intros Hc.
  destruct (conn_Get E cn key (world s)) as [[b [e|]] w] eqn:G.
  - left. destruct (error_is_ErrNil e) as [-> | Hne].
    + rewrite (Get_wired_miss Obj World E s key object cn b w Hc G); simpl.
      apply emitted_app; simpl; rewrite <- app_assoc; reflexivity.
    + rewrite (Get_wired_fault Obj World E s key object cn b e w Hc G Hne); simpl.
      apply emitted_app; simpl; rewrite <- app_assoc; reflexivity.
  - destruct b as [|x b'].
    + left. rewrite (Get_wired_empty Obj World E s key object cn w Hc G); simpl.
      apply emitted_app; simpl; rewrite <- app_assoc; reflexivity.
    + right. assert (Hb : x :: b' <> []) by congruence.
      exists (x :: b'). split; [exact Hb|].
      rewrite (Get_wired_decode Obj World E s key object cn (x :: b') w Hc G Hb); simpl.
      apply emitted_app; simpl; rewrite <- !app_assoc; reflexivity.
Qed.

(** The log only grows. *)
Lemma exec_log_extends (c : Call Obj) s :
  log (exec E c s) = log s ++ emitted s (exec E c s).
Proof.
  assert (K : forall s' evs, log s' = log s ++ evs -> log s' = log s ++ emitted s s').
  { intros s' evs H. rewrite (emitted_app Obj World s s' evs H). exact H. }
  destruct c as [item | key object |]; cbn [exec].
  - destruct (Marshal (cache s) (Object item)) as [b [e|]] eqn:H.
    + rewrite (Set_marshal_rejects Obj World E s item b e H). eapply K; reflexivity.
    + destruct (conn (cache s)) as [cn|] eqn:Hc.
      * rewrite (Set_wired Obj World E s item b cn H Hc).
        eapply K; simpl; rewrite <- !app_assoc; reflexivity.
      * rewrite (Set_nil Obj World E s item b H Hc).
        eapply K; simpl; rewrite <- !app_assoc; reflexivity.
  - destruct (conn (cache s)) as [cn|] eqn:Hc.
    + destruct (conn_Get E cn key (world s)) as [[b [e|]] w] eqn:G.
      * destruct (error_is_ErrNil e) as [-> | Hne].
        -- rewrite (Get_wired_miss Obj World E s key object cn b w Hc G).
           eapply K; simpl; rewrite <- !app_assoc; reflexivity.
        -- rewrite (Get_wired_fault Obj World E s key object cn b e w Hc G Hne).
           eapply K; simpl; rewrite <- !app_assoc; reflexivity.
      * destruct b as [|x b'].
        -- rewrite (Get_wired_empty Obj World E s key object cn w Hc G).
           eapply K; simpl; rewrite <- !app_assoc; reflexivity.
        -- assert (Hb : x :: b' <> []) by congruence.
           rewrite (Get_wired_decode Obj World E s key object cn (x :: b') w Hc G Hb).
           eapply K; simpl; rewrite <- !app_assoc; reflexivity.
    + rewrite (Get_nil Obj World E s key object Hc). eapply K; reflexivity.
  - simpl. unfold emitted. rewrite skipn_all. symmetry; apply app_nil_r.
Qed.

Lemma run_log_extends (cs : list (Call Obj)) s :
  log (run E cs s) = log s ++ emitted s (run E cs s).
Proof.
  revert s; induction cs as [|c cs IH]; intros s.
  - simpl. unfold emitted. rewrite skipn_all. symmetry; apply app_nil_r.
  - change (run E (c :: cs) s) with (run E cs (exec E c s)).
    assert (H : log (run E cs (exec E c s)) =
                log s ++ (emitted s (exec E c s) ++ emitted (exec E c s) (run E cs (exec E c s)))).
    { rewrite app_assoc, <- exec_log_extends. apply IH. }
    rewrite (emitted_app Obj World s _ _ H). exact H.
Qed.

Lemma emitted_run_cons (c : Call Obj) (cs : list (Call Obj)) s :
  emitted s (run E (c :: cs) s) =
  emitted s (exec E c s) ++ emitted (exec E c s) (run E cs (exec E c s)).
Proof.
  change (run E (c :: cs) s) with (run E cs (exec E c s)).
  apply emitted_app.
  rewrite app_assoc, <- exec_log_extends. apply run_log_extends.
Qed.

(** One call on an instance whose field holds [cn]: nothing is taken
    from the pool, every request and every close is on [cn], and there
    are as many closes as requests. *)
Lemma exec_wired_events (c : Call Obj) s cn :
  conn (cache s) = Some cn ->
  Forall (only_on cn) (emitted s (exec E c s)) /\
  List.length (filter is_close (emitted s (exec E c s))) =
  List.length (filter is_request (emitted s (exec E c s))).
Proof.
  intros Hc. destruct c as [item | key object |]; cbn [exec].
  - destruct (Marshal (cache s) (Object item)) as [b [e|]] eqn:H.
    + rewrite (Set_marshal_rejects Obj World E s item b e H); simpl.
      erewrite emitted_app by (simpl; reflexivity).
      split; [repeat constructor | reflexivity].
    + rewrite (Set_wired Obj World E s item b cn H Hc); simpl.
      erewrite emitted_app by (simpl; rewrite <- !app_assoc; reflexivity).
      split; [repeat constructor | reflexivity].
  - destruct (Get_wired_events s key object cn Hc) as [-> | (b & _ & ->)];
      (split; [repeat constructor | reflexivity]).
  - simpl. unfold emitted. rewrite skipn_all. split; [constructor | reflexivity].
Qed.

(** One call on an instance whose field is nil: the instance is left
    as it was, and nothing but the marshal function and the pool is
    called. *)
Lemma exec_nil_events (c : Call Obj) s :
  conn (cache s) = None ->
  cache (exec E c s) = cache s /\
  Forall (off_store (Redis (cache s))) (emitted s (exec E c s)).
Proof.
  intros Hc. destruct c as [item | key object |]; cbn [exec].
  - split; [apply Set_keeps_cache|].
    destruct (Marshal (cache s) (Object item)) as [b [e|]] eqn:H.
    + rewrite (Set_marshal_rejects Obj World E s item b e H); simpl.
      erewrite emitted_app by (simpl; reflexivity). repeat constructor.
    + rewrite (Set_nil Obj World E s item b H Hc); simpl.
      erewrite emitted_app by (simpl; rewrite <- !app_assoc; reflexivity).
      repeat constructor.
  - rewrite (Get_nil Obj World E s key object Hc); simpl.
    erewrite emitted_app by (simpl; reflexivity).
    split; [reflexivity | repeat constructor].
  - simpl. unfold emitted. rewrite skipn_all. split; [reflexivity | constructor].
Qed.

(** X4.  On an instance whose connection field holds a connection, no
    sequence of [Set], [Get] and [Stats] calls ever takes a connection
    from the pool: every request and every close is on the field's
    connection, and there are as many closes as requests (each call
    that sends a request closes that one connection again). *)
Theorem wired_instance_stays_on_its_connection s (cs : list (Call Obj)) cn :
  conn (cache s) = Some cn ->
  Forall (only_on cn) (emitted s (run E cs s)) /\
  List.length (filter is_close (emitted s (run E cs s))) =
  List.length (filter is_request (emitted s (run E cs s))).
Proof.
  revert s; induction cs as [|c cs IH]; intros s Hc.
  - simpl. unfold emitted. rewrite skipn_all. split; [constructor | reflexivity].
  - rewrite emitted_run_cons.
    destruct (exec_wired_events c s cn Hc) as [F1 L1].
    assert (Hc' : conn (cache (exec E c s)) = Some cn)
      by (rewrite exec_keeps_conn; exact Hc).
    destruct (IH (exec E c s) Hc') as [F2 L2].
    split.
    + apply Forall_app; split; assumption.
    + rewrite !filter_app, !length_app. congruence.
Qed.

Lemma run_nil_events (cs : list (Call Obj)) s :
  conn (cache s) = None ->
  cache (run E cs s) = cache s /\
  Forall (off_store (Redis (cache s))) (emitted s (run E cs s)).
Proof.
  revert s; induction cs as [|c cs IH]; intros s Hc.
  - simpl. unfold emitted. rewrite skipn_all. split; [reflexivity | constructor].
  - rewrite emitted_run_cons.
    destruct (exec_nil_events c s Hc) as [C1 F1].
    assert (Hc' : conn (cache (exec E c s)) = None) by (rewrite C1; exact Hc).
    destruct (IH (exec E c s) Hc') as [C2 F2].
    change (run E (c :: cs) s) with (run E cs (exec E c s)).
    rewrite C1 in C2, F2.
    split; [exact C2 | apply Forall_app; split; assumption].
Qed.

(** X5.  An instance built by [NewRedisCache] never reaches the store:
    whatever the pool and the store do and whatever sequence of [Set],
    [Get] and [Stats] calls is made (a caller recovering from the
    panics), the only outside calls are to the marshal function and to
    the pool's [Get]; no request is sent and no connection is closed,
    the instance stays as constructed, and [Stats] reports 0 hits and
    0 misses. *)
Theorem fresh_instance_never_reaches_store
    (p : Pool) (m : Obj -> bytes * option error)
    (u : bytes -> Obj -> Obj * option error) (w : World) (cs : list (Call Obj)) :
  let s0 := {| cache := NewRedisCache p m u; world := w; log := [] |} in
  cache (run E cs s0) = NewRedisCache p m u /\
  Forall (off_store p) (log (run E cs s0)) /\
  fst (Cache_Stats (run E cs s0)) = Ret {| Hits := 0; Misses := 0 |}.
Proof.
  intros s0.
  destruct (run_nil_events cs s0 eq_refl) as [C F].
  split; [exact C|]. split.
  - rewrite run_log_extends. exact F.
  - unfold Cache_Stats, bind, self, ret. rewrite C. reflexivity.
Qed.

(** X6.  [Set] returns nil only after the object was marshalled, one
    SETEX with the key, the computed TTL and the marshalled bytes was
    sent on the field's connection and accepted, and that connection was
    closed; in particular never on an instance whose field is nil. *)
Theorem Set_success_means_written s (item : Item Obj) :
  fst (Cache_Set E item s) = Ret None ->
  exists cn b,
    conn (cache s) = Some cn /\
    Marshal (cache s) (Object item) = (b, None) /\
    fst (conn_Setex E cn (Key item) (ttl_seconds (Expiration item)) b (world s)) = None /\
    emitted s (snd (Cache_Set E item s)) =
      [EvMarshal; EvSetex cn (Key item) (ttl_seconds (Expiration item)) b; EvClose cn].
Proof.
  destruct (Marshal (cache s) (Object item)) as [b [e|]] eqn:H.
  - rewrite (Set_marshal_rejects Obj World E s item b e H); simpl; discriminate.
  - destruct (conn (cache s)) as [cn|] eqn:Hc.
    + rewrite (Set_wired Obj World E s item b cn H Hc); simpl.
      destruct (fst (conn_Setex E cn (Key item) (ttl_seconds (Expiration item)) b (world s)))
        eqn:W; [discriminate|].
      intros _. exists cn, b. repeat split; auto.
      apply emitted_app; simpl; rewrite <- !app_assoc; reflexivity.
    + rewrite (Set_nil Obj World E s item b H Hc); simpl.
      destruct (conn_Err E _ _); discriminate.
Qed.

(** X7.  When the store refuses the SETEX, [Set] returns the store's
    error wrapped as "Redis SETEX failed" (the error remaining the
    cause), and the deferred close of the connection still runs, after
    the failed request; the instance itself is untouched. *)
Theorem Set_write_failure_still_closes s (item : Item Obj) b cn e w :
  Marshal (cache s) (Object item) = (b, None) ->
  conn (cache s) = Some cn ->
  conn_Setex E cn (Key item) (ttl_seconds (Expiration item)) b (world s) = (Some e, w) ->
  let r := Cache_Set E item s in
  fst r = Ret (Some (Wrap e "Redis SETEX failed")) /\
  Cause (Wrap e "Redis SETEX failed") = Cause e /\
  emitted s (snd r) =
    [EvMarshal; EvSetex cn (Key item) (ttl_seconds (Expiration item)) b; EvClose cn] /\
  world (snd r) = conn_Close E cn w /\
  cache (snd r) = cache s.
Proof.
  intros H Hc W r; subst r.
  rewrite (Set_wired Obj World E s item b cn H Hc), W; simpl.
  repeat split.
  apply emitted_app; simpl; rewrite <- !app_assoc; reflexivity.
Qed.

(** X8.  When the field is nil and the connection handed out by the
    pool reports an error, [Get] and [Set] return that error wrapped
    twice ([WithStack], then "getConn failed"), send no request, leave
    the instance and the destination as they were, and do not close
    the connection the pool handed out. *)
Theorem acquisition_failure_is_reported s cn w e :
  conn (cache s) = None ->
  pool_Get E (Redis (cache s)) (world s) = (cn, w) ->
  conn_Err E cn w = Some e ->
  (forall key object,
      Get E key object s =
        (Ret (Some (Wrap (WithStack e) "getConn failed"), object),
         {| cache := cache s; world := w;
            log := log s ++ [EvPoolGet (Redis (cache s)) cn] |})) /\
  (forall (item : Item Obj) b,
      Marshal (cache s) (Object item) = (b, None) ->
      Cache_Set E item s =
        (Ret (Some (Wrap (WithStack e) "getConn failed")),
         {| cache := cache s; world := w;
            log := (log s ++ [EvMarshal]) ++ [EvPoolGet (Redis (cache s)) cn] |})) /\
  Cause (Wrap (WithStack e) "getConn failed") = Cause e.
Proof.
  intros Hc Hp He. repeat split.
  - intros key object. rewrite (Get_nil Obj World E s key object Hc), Hp; simpl.
    rewrite He. reflexivity.
  - intros item b H. rewrite (Set_nil Obj World E s item b H Hc), Hp; simpl.
    rewrite He. reflexivity.
Qed.

(** X9.  What [Get] returned tells what it did to the counters: a nil
    error or an "unmarshal failed" error means exactly one hit was
    added, [ErrCacheMiss] means exactly one miss was added, and a
    "getConn failed" error, a "Redis GET failed" error or a panic mean
    that neither counter moved. *)
Theorem Get_counters_follow_result s key object :
  let r := Get E key object s in
  let h := hits (cache s) in
  let m := misses (cache s) in
  let h' := hits (cache (snd r)) in
  let m' := misses (cache (snd r)) in
  match fst r with
  | Ret (None, _) => h' = AddUint64 h 1 /\ m' = m
  | Ret (Some ErrCacheMiss, _) => h' = h /\ m' = AddUint64 m 1
  | Ret (Some (Wrap _ msg), _) =>
      if String.eqb msg "unmarshal failed"
      then h' = AddUint64 h 1 /\ m' = m
      else h' = h /\ m' = m
  | _ => h' = h /\ m' = m
  end.
Proof.
  simpl.
  destruct (conn (cache s)) as [cn|] eqn:Hc.
  - destruct (conn_Get E cn key (world s)) as [[b [e|]] w] eqn:G.
    + destruct (error_is_ErrNil e) as [-> | Hne].
      * rewrite (Get_wired_miss Obj World E s key object cn b w Hc G); simpl; auto.
      * rewrite (Get_wired_fault Obj World E s key object cn b e w Hc G Hne); simpl; auto.
    + destruct b as [|x b'].
      * rewrite (Get_wired_empty Obj World E s key object cn w Hc G); simpl; auto.
      * assert (Hb : x :: b' <> []) by congruence.
        rewrite (Get_wired_decode Obj World E s key object cn (x :: b') w Hc G Hb); simpl.
        destruct (snd (Unmarshal (cache s) (x :: b') object)); simpl; auto.
  - rewrite (Get_nil Obj World E s key object Hc); simpl.
    destruct (conn_Err E _ _); simpl; auto.
Qed.

Lemma count_gets_cons (c : Call Obj) (cs : list (Call Obj)) :
  Z.of_nat (count_gets (c :: cs)) =
  (if is_get c then 1 else 0) + Z.of_nat (count_gets cs).
Proof.
  unfold count_gets. cbn [filter]. destruct (is_get c); cbn [List.length]; lia.
Qed.

Lemma run_counters_bounded_by_gets (cs : list (Call Obj)) s :
  is_uint64 (hits (cache s)) ->
  is_uint64 (misses (cache s)) ->
  hits (cache s) + misses (cache s) + Z.of_nat (count_gets cs) <= max_uint64 ->
  hits (cache s) <= hits (cache (run E cs s)) /\
  misses (cache s) <= misses (cache (run E cs s)) /\
  hits (cache (run E cs s)) + misses (cache (run E cs s)) <=
    hits (cache s) + misses (cache s) + Z.of_nat (count_gets cs).
Proof.
  revert s; induction cs as [|c cs IH]; intros s Hh Hm Hb.
  - simpl. lia.
  - change (run E (c :: cs) s) with (run E cs (exec E c s)).
    rewrite count_gets_cons in Hb |- *.
    destruct (exec_counters_in_range Obj World E c s Hh Hm) as [Hh' Hm'].
    pose proof (IH (exec E c s) Hh' Hm') as IH'.
    unfold is_uint64 in *.
    destruct (exec_counters Obj World E c s) as [[Eh Em] | [[key [object ->]] [[Eh Em] | [Eh Em]]]].
    + rewrite Eh, Em in *. destruct (is_get c); lia.
    + cbn [is_get] in *. rewrite Eh, Em in *.
      rewrite AddUint64_succ in * by lia. lia.
    + cbn [is_get] in *. rewrite Eh, Em in *.
      rewrite AddUint64_succ in * by lia. lia.
Qed.

(** X10.  After any sequence of calls, [Stats] reports counters that
    have not gone down and whose sum has grown by at most the number of
    [Get] calls in the sequence, as long as that sum stays within
    [uint64]: a [Get] counts at most once, as a hit or as a miss, and
    [Set] and [Stats] count nothing. *)
Theorem Stats_grows_by_at_most_the_gets s (cs : list (Call Obj)) :
  is_uint64 (hits (cache s)) ->
  is_uint64 (misses (cache s)) ->
  hits (cache s) + misses (cache s) + Z.of_nat (count_gets cs) <= max_uint64 ->
  exists st,
    Cache_Stats (run E cs s) = (Ret st, run E cs s) /\
    hits (cache s) <= Hits st /\
    misses (cache s) <= Misses st /\
    Hits st + Misses st <= hits (cache s) + misses (cache s) + Z.of_nat (count_gets cs).
Proof.
  intros Hh Hm Hb.
  exists {| Hits := hits (cache (run E cs s)); Misses := misses (cache (run E cs s)) |}.
  split; [reflexivity|]. cbn [Hits Misses].
  apply run_counters_bounded_by_gets; assumption.
Qed.

(** X11.  Round trip.  On an instance whose field holds a connection,
    when the store accepts the SETEX and afterwards answers the GET of
    the same key with the bytes that were written, and the unmarshal
    function turns those bytes (not empty) back into the object, then
    [Set] of the object followed by [Get] of the key both return nil,
    the destination ends up holding the object, and exactly one hit is
    counted. *)
Theorem Set_then_Get_round_trip s key (o dest : Obj) (d : Time.Duration) cn b w1 w2 :
  conn (cache s) = Some cn ->
  Marshal (cache s) o = (b, None) ->
  b <> [] ->
  conn_Setex E cn key (ttl_seconds d) b (world s) = (None, w1) ->
  conn_Get E cn key (conn_Close E cn w1) = ((b, None), w2) ->
  Unmarshal (cache s) b dest = (o, None) ->
  let r1 := Cache_Set E {| Key := key; Object := o; Expiration := d |} s in
  let r2 := Get E key dest (snd r1) in
  fst r1 = Ret None /\
  fst r2 = Ret (None, o) /\
  hits (cache (snd r2)) = AddUint64 (hits (cache s)) 1 /\
  misses (cache (snd r2)) = misses (cache s).
Proof.
  intros Hc Hm Hb Hw Hg Hu r1 r2; subst r2 r1.
  rewrite (Set_wired Obj World E s {| Key := key; Object := o; Expiration := d |} b cn Hm Hc).
  cbn [Key Expiration Object]. rewrite Hw. cbn [fst snd].
  split; [reflexivity|].
  match goal with |- context [Get E key dest ?s1] => set (s1' := s1) end.
  rewrite (Get_wired_decode Obj World E s1' key dest cn b w2 Hc Hg Hb).
  cbn [fst snd cache hits misses with_hits s1']. cbn [cache s1'].
  rewrite Hu. repeat split.
Qed.

(** X12.  An object whose encoding is empty does not come back: when
    the marshal function returns no bytes for it and the store hands
    those no bytes back, [Set] and [Get] both return nil and a hit is
    counted, yet the unmarshal function is never called and the
    destination keeps what it held before. *)
Theorem empty_encoding_is_not_restored s key (o dest : Obj) (d : Time.Duration) cn w1 w2 :
  conn (cache s) = Some cn ->
  Marshal (cache s) o = ([], None) ->
  conn_Setex E cn key (ttl_seconds d) [] (world s) = (None, w1) ->
  conn_Get E cn key (conn_Close E cn w1) = (([], None), w2) ->
  let r1 := Cache_Set E {| Key := key; Object := o; Expiration := d |} s in
  let r2 := Get E key dest (snd r1) in
  fst r1 = Ret None /\
  fst r2 = Ret (None, dest) /\
  hits (cache (snd r2)) = AddUint64 (hits (cache s)) 1 /\
  emitted s (snd r2) =
    [EvMarshal; EvSetex cn key (ttl_seconds d) []; EvClose cn; EvGet cn key; EvClose cn].
Proof.
  intros Hc Hm Hw Hg r1 r2; subst r2 r1.
  rewrite (Set_wired Obj World E s {| Key := key; Object := o; Expiration := d |} [] cn Hm Hc).
  cbn [Key Expiration Object]. rewrite Hw. cbn [fst snd].
  split; [reflexivity|].
  match goal with |- context [Get E key dest ?s1] => set (s1' := s1) end.
  rewrite (Get_wired_empty Obj World E s1' key dest cn w2 Hc Hg).
  cbn [fst snd cache hits with_hits s1']. cbn [cache s1'].
  repeat split.
  apply emitted_app. cbn [log s1']. rewrite <- !app_assoc. reflexivity.
Qed.

End Paths.

(** ** The further properties on the sample world *)

Lemma ttl_is_truncation_below_2pow24_witness :
  Time.Second <= 5999999999 < 2 ^ 24 * Time.Second /\
  (ttl_seconds 5999999999 = Z.quot 5999999999 Time.Second /\
   Time.Second * ttl_seconds 5999999999 <= 5999999999
     < Time.Second * (ttl_seconds 5999999999 + 1)).
Proof.
  assert (H : Time.Second <= 5999999999 < 2 ^ 24 * Time.Second)
    by (change Time.Second with 1000000000; lia).
  split; [exact H|].
  apply (ttl_is_truncation_below_2pow24 5999999999 H).
Defined.

Lemma ttl_within_one_second_of_truncation_witness :
  Time.Second <= 16777216999999999 /\
  Time.is_int64 16777216999999999 /\
  Z.quot 16777216999999999 Time.Second <= ttl_seconds 16777216999999999
    <= Z.quot 16777216999999999 Time.Second + 1.
Proof.
  assert (H1 : Time.Second <= 16777216999999999)
    by (change Time.Second with 1000000000; lia).
  assert (H2 : Time.is_int64 16777216999999999)
    by (unfold Time.is_int64, Time.min_int64, Time.max_int64; lia).
  split; [exact H1|]. split; [exact H2|].
  apply (ttl_within_one_second_of_truncation 16777216999999999 H1 H2).
Defined.

Lemma ttl_is_at_least_one_second_witness :
  Time.is_int64 (-5) /\ 1 <= ttl_seconds (-5).
Proof.
  assert (H : Time.is_int64 (-5))
    by (unfold Time.is_int64, Time.min_int64, Time.max_int64; lia).
  split; [exact H|].
  apply (ttl_is_at_least_one_second (-5) H).
Defined.

(** A [Set], two [Get]s and a [Stats] on the instance that holds
    connection 3. *)
Lemma wired_instance_stays_on_its_connection_witness :
  conn (cache Toy.s_wired) = Some 3%nat /\
  (Forall (only_on 3%nat)
     (emitted Toy.s_wired
        (run Toy.env [CallSet Toy.long_item; Toy.get_nokey; CallGet "k" []; CallStats]
           Toy.s_wired)) /\
   List.length (filter is_close
     (emitted Toy.s_wired
        (run Toy.env [CallSet Toy.long_item; Toy.get_nokey; CallGet "k" []; CallStats]
           Toy.s_wired))) =
   List.length (filter is_request
     (emitted Toy.s_wired
        (run Toy.env [CallSet Toy.long_item; Toy.get_nokey; CallGet "k" []; CallStats]
           Toy.s_wired)))).
Proof.
  split; [reflexivity|].
  apply (wired_instance_stays_on_its_connection Toy.Obj Toy.World Toy.env
           Toy.s_wired
           [CallSet Toy.long_item; Toy.get_nokey; CallGet "k" []; CallStats] 3%nat).
  reflexivity.
Defined.

Lemma Set_success_means_written_witness :
  fst (Cache_Set Toy.env Toy.long_item Toy.s_wired) = Ret None /\
  (exists cn b,
      conn (cache Toy.s_wired) = Some cn /\
      Marshal (cache Toy.s_wired) (Object Toy.long_item) = (b, None) /\
      fst (conn_Setex Toy.env cn (Key Toy.long_item)
             (ttl_seconds (Expiration Toy.long_item)) b (world Toy.s_wired)) = None /\
      emitted Toy.s_wired (snd (Cache_Set Toy.env Toy.long_item Toy.s_wired)) =
        [EvMarshal;
         EvSetex cn (Key Toy.long_item) (ttl_seconds (Expiration Toy.long_item)) b;
         EvClose cn]).
Proof.
  split; [reflexivity|].
  apply (Set_success_means_written Toy.Obj Toy.World Toy.env Toy.s_wired Toy.long_item).
  reflexivity.
Defined.

(** A world whose store refuses writes. *)
Lemma Set_write_failure_still_closes_witness :
  Marshal (cache (Toy.sys (Toy.wired 5 6) Toy.world_readonly)) (Object Toy.long_item)
    = ([Byte.x05], None) /\
  conn (cache (Toy.sys (Toy.wired 5 6) Toy.world_readonly)) = Some 3%nat /\
  conn_Setex Toy.env 3%nat (Key Toy.long_item) (ttl_seconds (Expiration Toy.long_item))
    [Byte.x05] (world (Toy.sys (Toy.wired 5 6) Toy.world_readonly))
    = (Some (Fault "READONLY"), Toy.world_readonly) /\
  (fst (Cache_Set Toy.env Toy.long_item (Toy.sys (Toy.wired 5 6) Toy.world_readonly))
     = Ret (Some (Wrap (Fault "READONLY") "Redis SETEX failed")) /\
   Cause (Wrap (Fault "READONLY") "Redis SETEX failed") = Cause (Fault "READONLY") /\
   emitted (Toy.sys (Toy.wired 5 6) Toy.world_readonly)
     (snd (Cache_Set Toy.env Toy.long_item (Toy.sys (Toy.wired 5 6) Toy.world_readonly)))
     = [EvMarshal;
        EvSetex 3%nat (Key Toy.long_item) (ttl_seconds (Expiration Toy.long_item)) [Byte.x05];
        EvClose 3%nat] /\
   world (snd (Cache_Set Toy.env Toy.long_item (Toy.sys (Toy.wired 5 6) Toy.world_readonly)))
     = conn_Close Toy.env 3%nat Toy.world_readonly /\
   cache (snd (Cache_Set Toy.env Toy.long_item (Toy.sys (Toy.wired 5 6) Toy.world_readonly)))
     = cache (Toy.sys (Toy.wired 5 6) Toy.world_readonly)).
Proof.
  split; [reflexivity|]. split; [reflexivity|]. split; [reflexivity|].
  apply (Set_write_failure_still_closes Toy.Obj Toy.World Toy.env
           (Toy.sys (Toy.wired 5 6) Toy.world_readonly) Toy.long_item
           [Byte.x05] 3%nat (Fault "READONLY") Toy.world_readonly); reflexivity.
Defined.

(** A world whose pool is exhausted. *)
Lemma acquisition_failure_is_reported_witness :
  conn (cache (Toy.sys Toy.fresh Toy.world_down)) = None /\
  pool_Get Toy.env (Redis (cache (Toy.sys Toy.fresh Toy.world_down)))
    (world (Toy.sys Toy.fresh Toy.world_down))
    = (7%nat, snd (pool_Get Toy.env 0%nat Toy.world_down)) /\
  conn_Err Toy.env 7%nat (snd (pool_Get Toy.env 0%nat Toy.world_down))
    = Some (Fault "pool exhausted") /\
  fst (Get Toy.env "k" [Byte.x09] (Toy.sys Toy.fresh Toy.world_down))
    = Ret (Some (Wrap (WithStack (Fault "pool exhausted")) "getConn failed"), [Byte.x09]).
Proof.
  split; [reflexivity|]. split; [reflexivity|]. split; [reflexivity|].
  exact (f_equal fst
           (proj1 (acquisition_failure_is_reported Toy.Obj Toy.World Toy.env
                     (Toy.sys Toy.fresh Toy.world_down) 7%nat
                     (snd (pool_Get Toy.env 0%nat Toy.world_down))
                     (Fault "pool exhausted") eq_refl eq_refl eq_refl)
              "k" [Byte.x09])).
Defined.

Lemma Stats_grows_by_at_most_the_gets_witness :
  is_uint64 (hits (cache Toy.s_wired)) /\
  is_uint64 (misses (cache Toy.s_wired)) /\
  hits (cache Toy.s_wired) + misses (cache Toy.s_wired)
    + Z.of_nat (count_gets [CallSet Toy.long_item; Toy.get_nokey; CallGet "k" []; CallStats])
    <= max_uint64 /\
  (exists st,
      Cache_Stats
        (run Toy.env [CallSet Toy.long_item; Toy.get_nokey; CallGet "k" []; CallStats]
           Toy.s_wired)
      = (Ret st,
         run Toy.env [CallSet Toy.long_item; Toy.get_nokey; CallGet "k" []; CallStats]
           Toy.s_wired) /\
      hits (cache Toy.s_wired) <= Hits st /\
      misses (cache Toy.s_wired) <= Misses st /\
      Hits st + Misses st <=
        hits (cache Toy.s_wired) + misses (cache Toy.s_wired)
        + Z.of_nat (count_gets
                      [CallSet Toy.long_item; Toy.get_nokey; CallGet "k" []; CallStats])).
Proof.
  assert (R5 : is_uint64 (hits (cache Toy.s_wired)))
    by (unfold is_uint64, max_uint64; simpl; lia).
  assert (R6 : is_uint64 (misses (cache Toy.s_wired)))
    by (unfold is_uint64, max_uint64; simpl; lia).
  assert (Rb : hits (cache Toy.s_wired) + misses (cache Toy.s_wired)
               + Z.of_nat (count_gets
                    [CallSet Toy.long_item; Toy.get_nokey; CallGet "k" []; CallStats])
               <= max_uint64)
    by (unfold max_uint64; simpl; lia).
  split; [exact R5|]. split; [exact R6|]. split; [exact Rb|].
  apply (Stats_grows_by_at_most_the_gets Toy.Obj Toy.World Toy.env Toy.s_wired
           [CallSet Toy.long_item; Toy.get_nokey; CallGet "k" []; CallStats] R5 R6 Rb).
Defined.

Lemma Set_then_Get_round_trip_witness :
  conn (cache Toy.s_wired) = Some 3%nat /\
  Marshal (cache Toy.s_wired) [Byte.x2a] = ([Byte.x2a], None) /\
  [Byte.x2a] <> [] /\
  conn_Setex Toy.env 3%nat "answer" (ttl_seconds (5 * Time.Second)) [Byte.x2a]
    (world Toy.s_wired) = (None, Toy.world_after_write) /\
  conn_Get Toy.env 3%nat "answer" (conn_Close Toy.env 3%nat Toy.world_after_write)
    = (([Byte.x2a], None), Toy.world_after_write) /\
  Unmarshal (cache Toy.s_wired) [Byte.x2a] [Byte.x09] = ([Byte.x2a], None) /\
  (fst (Cache_Set Toy.env
          {| Key := "answer"; Object := [Byte.x2a]; Expiration := 5 * Time.Second |}
          Toy.s_wired) = Ret None /\
   fst (Get Toy.env "answer" [Byte.x09]
          (snd (Cache_Set Toy.env
                  {| Key := "answer"; Object := [Byte.x2a]; Expiration := 5 * Time.Second |}
                  Toy.s_wired))) = Ret (None, [Byte.x2a]) /\
   hits (cache (snd (Get Toy.env "answer" [Byte.x09]
          (snd (Cache_Set Toy.env
                  {| Key := "answer"; Object := [Byte.x2a]; Expiration := 5 * Time.Second |}
                  Toy.s_wired))))) = AddUint64 (hits (cache Toy.s_wired)) 1 /\
   misses (cache (snd (Get Toy.env "answer" [Byte.x09]
          (snd (Cache_Set Toy.env
                  {| Key := "answer"; Object := [Byte.x2a]; Expiration := 5 * Time.Second |}
                  Toy.s_wired))))) = misses (cache Toy.s_wired)).
Proof.
  assert (Hb : [Byte.x2a] <> ([] : bytes)) by discriminate.
  split; [reflexivity|]. split; [reflexivity|]. split; [exact Hb|].
  split; [reflexivity|]. split; [reflexivity|]. split; [reflexivity|].
  apply (Set_then_Get_round_trip Toy.Obj Toy.World Toy.env Toy.s_wired "answer"
           [Byte.x2a] [Byte.x09] (5 * Time.Second) 3%nat [Byte.x2a]
           Toy.world_after_write Toy.world_after_write
           eq_refl eq_refl Hb eq_refl eq_refl eq_refl).
Defined.

Lemma empty_encoding_is_not_restored_witness :
  conn (cache Toy.s_blank) = Some 3%nat /\
  Marshal (cache Toy.s_blank) [Byte.x2a] = ([], None) /\
  conn_Setex Toy.env 3%nat "answer" (ttl_seconds (5 * Time.Second)) []
    (world Toy.s_blank) = (None, Toy.world_after_blank) /\
  conn_Get Toy.env 3%nat "answer" (conn_Close Toy.env 3%nat Toy.world_after_blank)
    = (([], None), Toy.world_after_blank) /\
  (fst (Cache_Set Toy.env
          {| Key := "answer"; Object := [Byte.x2a]; Expiration := 5 * Time.Second |}
          Toy.s_blank) = Ret None /\
   fst (Get Toy.env "answer" [Byte.x09]
          (snd (Cache_Set Toy.env
                  {| Key := "answer"; Object := [Byte.x2a]; Expiration := 5 * Time.Second |}
                  Toy.s_blank))) = Ret (None, [Byte.x09]) /\
   hits (cache (snd (Get Toy.env "answer" [Byte.x09]
          (snd (Cache_Set Toy.env
                  {| Key := "answer"; Object := [Byte.x2a]; Expiration := 5 * Time.Second |}
                  Toy.s_blank))))) = AddUint64 (hits (cache Toy.s_blank)) 1 /\
   emitted Toy.s_blank
     (snd (Get Toy.env "answer" [Byte.x09]
          (snd (Cache_Set Toy.env
                  {| Key := "answer"; Object := [Byte.x2a]; Expiration := 5 * Time.Second |}
                  Toy.s_blank)))) =
     [EvMarshal; EvSetex 3%nat "answer" (ttl_seconds (5 * Time.Second)) [];
      EvClose 3%nat; EvGet 3%nat "answer"; EvClose 3%nat]).
Proof.
  split; [reflexivity|]. split; [reflexivity|].
  split; [reflexivity|]. split; [reflexivity|].
  apply (empty_encoding_is_not_restored Toy.Obj Toy.World Toy.env Toy.s_blank "answer"
           [Byte.x2a] [Byte.x09] (5 * Time.Second) 3%nat
           Toy.world_after_blank Toy.world_after_blank
           eq_refl eq_refl eq_refl eq_refl).
Defined.
